(** * Round-robin service scheduler: embedding of [src/scheduler.py]

    Python integers are unbounded, so every [int] is a [Z].  Dictionaries
    keyed by queue id are [gmap string _]; the creation-ordered list of ids
    is a [list string].  A Python exception ([KeyError], [IndexError]) is
    the [None] of the option monad.  Text written with [print] is returned
    next to the log lines as a separate stream. *)

From Stdlib Require Import ZArith List Ascii String.
From stdpp Require Import base option gmap strings list fin_maps pretty.

Local Open Scope string_scope.
Local Open Scope list_scope.
Local Open Scope Z_scope.

(** ** Text formatting *)

(** [str(z)] for an integer, as an f-string renders it. *)
Definition str_int (z : Z) : string := pretty z.

(** ["0" * n]. *)
Fixpoint zeros (n : nat) : string :=
  match n with
  | O => ""
  | S n' => String "0" (zeros n')
  end.

(** The format spec [:03d]: sign first, then zero padding up to a total
    width of three characters. *)
Definition fmt_03d (z : Z) : string :=
  if z <? 0 then
    let digits := str_int (- z) in
    "-" +:+ zeros (2 - String.length digits) +:+ digits
  else
    let digits := str_int z in
    zeros (3 - String.length digits) +:+ digits.

(** [sep.join(parts)]. *)
Definition join (sep : string) (parts : list string) : string :=
  String.concat sep parts.

(** ** Menu *)

(** [REQUIRED_MENU], in its insertion order. *)
Definition REQUIRED_MENU : list (string * Z) :=
  [ ("americano", 2); ("latte", 3); ("cappuccino", 3); ("mocha", 4);
    ("tea", 1); ("macchiato", 2); ("hot_chocolate", 4) ].

(** [name in menu] and [menu[name]] in one lookup. *)
Fixpoint menu_get (menu : list (string * Z)) (name : string) : option Z :=
  match menu with
  | [] => None
  | (k, v) :: rest => if String.eqb k name then Some v else menu_get rest name
  end.

(** Order on [(name, cost)] tuples used by [sorted]. *)
Definition item_leb (a b : string * Z) : bool :=
  match String.compare (fst a) (fst b) with
  | Lt => true
  | Eq => snd a <=? snd b
  | Gt => false
  end.

Fixpoint insert_sorted (x : string * Z) (l : list (string * Z)) : list (string * Z) :=
  match l with
  | [] => [x]
  | y :: rest => if item_leb x y then x :: l else y :: insert_sorted x rest
  end.

Definition sorted_items (l : list (string * Z)) : list (string * Z) :=
  fold_right insert_sorted [] l.

(** ** Task and QueueRR *)

Record Task := mkTask {
  task_id : string;
  remaining : Z
}.

Record QueueRR := mkQueueRR {
  queue_id : string;
  capacity : Z;
  data : list Task
}.

Module QueueRR_.

(** [QueueRR(queue_id, capacity)]. *)
Definition init (qid : string) (cap : Z) : QueueRR := mkQueueRR qid cap [].

(** [len(q)]. *)
Definition len (q : QueueRR) : Z := Z.of_nat (length (data q)).

(** [q.enqueue(task)]: the updated queue and the returned flag. *)
Definition enqueue (q : QueueRR) (t : Task) : QueueRR * bool :=
  if len q >=? capacity q then (q, false)
  else (mkQueueRR (queue_id q) (capacity q) (data q ++ [t]), true).

(** [q.dequeue()]: the updated queue and the popped head, if any. *)
Definition dequeue (q : QueueRR) : QueueRR * option Task :=
  match data q with
  | [] => (q, None)
  | t :: rest => (mkQueueRR (queue_id q) (capacity q) rest, Some t)
  end.

(** [q.peek()]. *)
Definition peek (q : QueueRR) : option Task := head (data q).

End QueueRR_.

(** ** Scheduler *)

Record Scheduler := mkScheduler {
  time : Z;
  queues : gmap string QueueRR;
  queue_order : list string;
  id_counter : gmap string Z;
  skip_flags : gmap string bool;
  rr_index : Z;
  _menu : list (string * Z)
}.

(** [Scheduler()]. *)
Definition init : Scheduler :=
  mkScheduler 0 ∅ [] ∅ ∅ 0 REQUIRED_MENU.

Definition set_time (v : Z) (s : Scheduler) : Scheduler :=
  mkScheduler v (queues s) (queue_order s) (id_counter s) (skip_flags s)
              (rr_index s) (_menu s).

Definition set_queues (v : gmap string QueueRR) (s : Scheduler) : Scheduler :=
  mkScheduler (time s) v (queue_order s) (id_counter s) (skip_flags s)
              (rr_index s) (_menu s).

Definition set_queue_order (v : list string) (s : Scheduler) : Scheduler :=
  mkScheduler (time s) (queues s) v (id_counter s) (skip_flags s)
              (rr_index s) (_menu s).

Definition set_id_counter (v : gmap string Z) (s : Scheduler) : Scheduler :=
  mkScheduler (time s) (queues s) (queue_order s) v (skip_flags s)
              (rr_index s) (_menu s).

Definition set_skip_flags (v : gmap string bool) (s : Scheduler) : Scheduler :=
  mkScheduler (time s) (queues s) (queue_order s) (id_counter s) v
              (rr_index s) (_menu s).

Definition set_rr_index (v : Z) (s : Scheduler) : Scheduler :=
  mkScheduler (time s) (queues s) (queue_order s) (id_counter s) (skip_flags s)
              v (_menu s).

(** [l[i]] with Python's indexing: a negative index counts from the end,
    anything outside [-len, len) raises. *)
Definition py_index {A} (l : list A) (i : Z) : option A :=
  let n := Z.of_nat (length l) in
  if (0 <=? i) && (i <? n) then l !! Z.to_nat i
  else if (- n <=? i) && (i <? 0) then l !! Z.to_nat (n + i)
  else None.

(** [next_queue()]: [None] when no queue is registered. *)
Definition next_queue (s : Scheduler) : option string :=
  match queue_order s with
  | [] => None
  | _ => py_index (queue_order s)
                  (rr_index s mod Z.of_nat (length (queue_order s)))
  end.

(** *** Log lines *)

Definition log_create (t : Z) (qid : string) : string :=
  "time=" +:+ str_int t +:+ " event=create queue=" +:+ qid.

Definition log_reject (t : Z) (qid tid reason : string) : string :=
  "time=" +:+ str_int t +:+ " event=reject queue=" +:+ qid +:+
  " task=" +:+ tid +:+ " reason=" +:+ reason.

Definition log_enqueue (t : Z) (qid tid : string) (burst : Z) : string :=
  "time=" +:+ str_int t +:+ " event=enqueue queue=" +:+ qid +:+
  " task=" +:+ tid +:+ " remaining=" +:+ str_int burst.

Definition log_skip (t : Z) (qid : string) : string :=
  "time=" +:+ str_int t +:+ " event=skip queue=" +:+ qid.

Definition log_error (t : Z) : string :=
  "time=" +:+ str_int t +:+ " event=error reason=invalid_steps".

Definition log_run (t : Z) (qid : string) : string :=
  "time=" +:+ str_int t +:+ " event=run queue=" +:+ qid.

Definition log_work (t : Z) (qid tid : string) (rem : Z) : string :=
  "time=" +:+ str_int t +:+ " event=work queue=" +:+ qid +:+
  " task=" +:+ tid +:+ " remaining=" +:+ str_int rem.

Definition log_finish (t : Z) (qid tid : string) : string :=
  "time=" +:+ str_int t +:+ " event=finish queue=" +:+ qid +:+
  " task=" +:+ tid.

(** [f"{queue_id}-{counter:03d}"]. *)
Definition make_task_id (qid : string) (counter : Z) : string :=
  qid +:+ "-" +:+ fmt_03d counter.

Definition msg_unknown_item : string := "Sorry, we don't serve that.".
Definition msg_full : string := "Sorry, we're at capacity.".

(** *** create_queue *)

Definition create_queue (qid : string) (cap : Z) (s : Scheduler)
  : Scheduler * list string :=
  match queues s !! qid with
  | Some _ => (s, [])
  | None =>
      (mkScheduler (time s)
                   (<[qid := QueueRR_.init qid cap]> (queues s))
                   (queue_order s ++ [qid])
                   (<[qid := 0]> (id_counter s))
                   (<[qid := false]> (skip_flags s))
                   (rr_index s)
                   (_menu s),
       [log_create (time s) qid])
  end.

(** *** enqueue *)

(** What a call hands back: the scheduler afterwards, the returned log
    lines, and the lines written with [print]. *)
Record Outcome := mkOutcome {
  out_state : Scheduler;
  out_logs : list string;
  out_printed : list string
}.

Definition enqueue (qid item_name : string) (s : Scheduler) : option Outcome :=
  match queues s !! qid with
  | None => Some (mkOutcome s [] [])
  | Some q =>
      c ← id_counter s !! qid;
      let s1 := set_id_counter (<[qid := c + 1]> (id_counter s)) s in
      let tid := make_task_id qid (c + 1) in
      match menu_get (_menu s1) item_name with
      | None =>
          Some (mkOutcome s1
                  [log_reject (time s1) qid tid "unknown_item"]
                  [msg_unknown_item])
      | Some burst =>
          let task := mkTask tid burst in
          match QueueRR_.enqueue q task with
          | (_, false) =>
              Some (mkOutcome s1
                      [log_reject (time s1) qid tid "full"]
                      [msg_full])
          | (q', true) =>
              Some (mkOutcome (set_queues (<[qid := q']> (queues s1)) s1)
                      [log_enqueue (time s1) qid tid burst]
                      [])
          end
      end
  end.

(** *** mark_skip *)

Definition mark_skip (qid : string) (s : Scheduler) : Scheduler * list string :=
  match skip_flags s !! qid with
  | Some _ =>
      (set_skip_flags (<[qid := true]> (skip_flags s)) s,
       [log_skip (time s) qid])
  | None => (s, [])
  end.

(** *** display *)

Definition show_task (t : Task) : string :=
  task_id t +:+ ":" +:+ str_int (remaining t).

Definition show_item (it : string * Z) : string :=
  fst it +:+ ":" +:+ str_int (snd it).

(** One line of the queue listing; the two subscripts can raise. *)
Definition display_queue (s : Scheduler) (qid : string) : option string :=
  q ← queues s !! qid;
  flag ← skip_flags s !! qid;
  let skip_tag := if flag : bool then " [ skip]" else "" in
  let tasks_str := join "," (map show_task (data q)) in
  Some ("display " +:+ qid +:+ " [" +:+ str_int (QueueRR_.len q) +:+ "/" +:+
        str_int (capacity q) +:+ "]" +:+ skip_tag +:+ " -> [" +:+
        tasks_str +:+ "]").

(** [self.next_queue() or "none"]: the empty id is falsy as well. *)
Definition next_or_none (s : Scheduler) : string :=
  match next_queue s with
  | None => "none"
  | Some "" => "none"
  | Some qid => qid
  end.

Definition display (s : Scheduler) : option (list string) :=
  let line_time :=
    "display time=" +:+ str_int (time s) +:+ " next=" +:+ next_or_none s in
  let menu_items := join "," (map show_item (sorted_items (_menu s))) in
  let line_menu := "display menu=[" +:+ menu_items +:+ "]" in
  qlines ← mapM (display_queue s) (queue_order s);
  Some ([line_time; line_menu] ++ qlines).

(** *** run *)

(** [all(len(qx) == 0 for qx in self.queues.values())]; the order in which
    the values are visited does not change the answer. *)
Definition all_empty (s : Scheduler) : bool :=
  forallb (fun kv => QueueRR_.len (snd kv) =? 0) (map_to_list (queues s)).

(** [not any(self.skip_flags.values())]. *)
Definition no_skips (s : Scheduler) : bool :=
  negb (existsb (fun kv => snd kv) (map_to_list (skip_flags s))).

(** The early-stop test of the unbounded mode. *)
Definition drained (s : Scheduler) : bool := all_empty s && no_skips s.

(** The skip / work / idle part of one turn: scheduler afterwards and the
    event line it logs, if any. *)
Definition serve (quantum : Z) (qid : string) (q : QueueRR) (s : Scheduler)
  : option (Scheduler * list string) :=
  flag ← skip_flags s !! qid;
  if flag : bool then
    Some (set_skip_flags (<[qid := false]> (skip_flags s)) s, [])
  else if QueueRR_.len q >? 0 then
    match QueueRR_.dequeue q with
    | (q1, Some task) =>
        let work_time := Z.min (remaining task) quantum in
        let task' := mkTask (task_id task) (remaining task - work_time) in
        let s1 := set_time (time s + work_time)
                           (set_queues (<[qid := q1]> (queues s)) s) in
        if remaining task' >? 0 then
          let q2 := fst (QueueRR_.enqueue q1 task') in
          Some (set_queues (<[qid := q2]> (queues s1)) s1,
                [log_work (time s1) qid (task_id task') (remaining task')])
        else
          Some (s1, [log_finish (time s1) qid (task_id task')])
    | (_, None) => None
    end
  else Some (s, []).

(** The body of the [while] loop up to and including the snapshot. *)
Definition run_turn (quantum n_queues : Z) (s : Scheduler)
  : option (Scheduler * list string) :=
  qid ← py_index (queue_order s) (rr_index s);
  q ← queues s !! qid;
  let l_run := [log_run (time s) qid] in
  '(s1, l_ev) ← serve quantum qid q s;
  let s2 := set_rr_index ((rr_index s1 + 1) mod n_queues) s1 in
  snap ← display s2;
  Some (s2, l_run ++ l_ev ++ snap).

(** The [while turns_done < turns] loop; [todo] is [turns - turns_done].
    The result carries the final [turns_done]. *)
Fixpoint run_loop (todo : nat) (quantum : Z) (steps : option Z) (n_queues : Z)
    (turns_done : Z) (s : Scheduler) (logs : list string)
  : option (Scheduler * list string * Z) :=
  match todo with
  | O => Some (s, logs, turns_done)
  | S todo' =>
      if n_queues =? 0 then Some (s, logs, turns_done)
      else
        '(s1, l1) ← run_turn quantum n_queues s;
        let logs1 := logs ++ l1 in
        let turns_done1 := turns_done + 1 in
        match steps with
        | None =>
            if drained s1 then Some (s1, logs1, turns_done1)
            else run_loop todo' quantum steps n_queues turns_done1 s1 logs1
        | Some _ =>
            run_loop todo' quantum steps n_queues turns_done1 s1 logs1
        end
  end.

(** [run], also reporting how many turns were executed. *)
Definition run_counting (quantum : Z) (steps : option Z) (s : Scheduler)
  : option (Scheduler * list string * Z) :=
  let n_queues := Z.of_nat (length (queue_order s)) in
  if n_queues =? 0 then Some (s, [], 0)
  else
    match steps with
    | Some st =>
        if (st <? 1) || (st >? n_queues) then
          Some (s, [log_error (time s)], 0)
        else run_loop (Z.to_nat st) quantum steps n_queues 0 s []
    | None =>
        run_loop (Z.to_nat (n_queues * 100)) quantum steps n_queues 0 s []
    end.

Definition run (quantum : Z) (steps : option Z) (s : Scheduler)
  : option (Scheduler * list string) :=
  fst <$> run_counting quantum steps s.

(** ** Sessions: states a caller can reach *)

Inductive Op :=
| OCreate (qid : string) (cap : Z)
| OEnqueue (qid item_name : string)
| OMarkSkip (qid : string)
| ORun (quantum : Z) (steps : option Z).

Definition exec_op (o : Op) (s : Scheduler) : option Scheduler :=
  match o with
  | OCreate qid cap => Some (fst (create_queue qid cap s))
  | OEnqueue qid item_name => out_state <$> enqueue qid item_name s
  | OMarkSkip qid => Some (fst (mark_skip qid s))
  | ORun quantum steps => (fun r => fst r) <$> run quantum steps s
  end.

Fixpoint exec_ops (os : list Op) (s : Scheduler) : option Scheduler :=
  match os with
  | [] => Some s
  | o :: rest => s1 ← exec_op o s; exec_ops rest s1
  end.

Definition reachable (s : Scheduler) : Prop :=
  exists os, exec_ops os init = Some s.

(** The state after [k] consecutive turns. *)
Fixpoint after_turns (k : nat) (quantum n_queues : Z) (s : Scheduler)
  : option Scheduler :=
  match k with
  | O => Some s
  | S k' => '(s1, _) ← run_turn quantum n_queues s;
            after_turns k' quantum n_queues s1
  end.

(** ** Vocabulary of the statements *)

(** What [Scheduler()] establishes and every operation keeps: the three
    dictionaries have the same keys, the listed ids are exactly the
    registered ones, the cursor is a valid index, and no queue holds more
    than [max(capacity, 0)] tasks. *)
Record wf (s : Scheduler) : Prop := mk_wf {
  wf_counter : forall qid, is_Some (queues s !! qid) <-> is_Some (id_counter s !! qid);
  wf_skip : forall qid, is_Some (queues s !! qid) <-> is_Some (skip_flags s !! qid);
  wf_order : forall qid, qid ∈ queue_order s <-> is_Some (queues s !! qid);
  wf_index : 0 <= rr_index s < Z.max 1 (Z.of_nat (length (queue_order s)));
  wf_bound : forall qid q, queues s !! qid = Some q ->
                           QueueRR_.len q <= Z.max 0 (capacity q)
}.

(** The visited queue of a turn. *)
Definition visits (s : Scheduler) (qid : string) (q : QueueRR) : Prop :=
  py_index (queue_order s) (rr_index s) = Some qid /\ queues s !! qid = Some q.

(** A rejected request, as the log shows it. *)
Definition is_reject (o : Outcome) (qid : string) : Prop :=
  exists tid reason,
    (reason = "unknown_item" \/ reason = "full") /\
    out_logs o = [log_reject (time (out_state o)) qid tid reason].

(** Sample schedulers. *)
Definition demo1 : Scheduler := fst (create_queue "c1" 2 init).

Definition demo_full : Scheduler :=
  default init (exec_ops [OCreate "c1" 1; OEnqueue "c1" "latte"] init).

Definition demo_skip : Scheduler := fst (mark_skip "c1" demo_full).

(** Every queue is empty and no skip flag is set. *)
Definition idle (s : Scheduler) : Prop :=
  (forall qid q, queues s !! qid = Some q -> data q = []) /\
  (forall qid b, skip_flags s !! qid = Some b -> b = false).

(** The capacity a queue id is registered with, if any. *)
Definition cap_of (s : Scheduler) (qid : string) : option Z :=
  capacity <$> queues s !! qid.


(** [menu()]: a copy of the table; values are immutable here, so the copy
    is the table. *)
Definition menu (s : Scheduler) : list (string * Z) := _menu s.

(** Every cost on the menu is positive. *)
Definition menu_positive (m : list (string * Z)) : Prop :=
  forall name cost, menu_get m name = Some cost -> 0 < cost.

(** Every queued task still has service time left. *)
Definition tasks_positive (s : Scheduler) : Prop :=
  forall qid q t, queues s !! qid = Some q -> t ∈ data q -> 0 < remaining t.

(** Some registered queue holds a task. *)
Definition busy (s : Scheduler) : Prop :=
  exists qid q, queues s !! qid = Some q /\ data q <> [].

(** Service time still owed to the tasks of one queue, and of all queues
    in creation order. *)
Definition queue_load (q : QueueRR) : Z :=
  fold_right Z.add 0 (map remaining (data q)).

Definition load_of (m : gmap string QueueRR) (qid : string) : Z :=
  from_option queue_load 0 (m !! qid).

Definition total_load (s : Scheduler) : Z :=
  fold_right Z.add 0 (map (load_of (queues s)) (queue_order s)).

(** How many [enqueue] calls of a session name the queue [qid]. *)
Fixpoint enqueue_calls (qid : string) (os : list Op) : Z :=
  match os with
  | [] => 0
  | OEnqueue q _ :: rest =>
      (if String.eqb q qid then 1 else 0) + enqueue_calls qid rest
  | _ :: rest => enqueue_calls qid rest
  end.

(** Adjacent entries are in the order [sorted] uses. *)
Fixpoint is_sorted (l : list (string * Z)) : bool :=
  match l with
  | [] => true
  | x :: rest =>
      match rest with
      | [] => true
      | y :: _ => item_leb x y
      end && is_sorted rest
  end.

(** A padded number with its leading zeros taken off. *)
Fixpoint lstrip0 (s : string) : string :=
  match s with
  | EmptyString => ""
  | String c r => if Ascii.eqb c "0" then lstrip0 r else s
  end.

(** ** Examples from the documented behaviour *)

Example demo_enqueue_tea :
  (fun o => (out_logs o, out_printed o)) <$> enqueue "c1" "tea" demo1
  = Some (["time=0 event=enqueue queue=c1 task=c1-001 remaining=1"], []).
Proof. vm_compute. reflexivity. Qed.

Example demo_run_finish :
  (s1 ← out_state <$> enqueue "c1" "tea" demo1;
   snd <$> run 5 (Some 1) s1)
  = Some [ "time=0 event=run queue=c1";
           "time=1 event=finish queue=c1 task=c1-001";
           "display time=1 next=c1";
           "display menu=[americano:2,cappuccino:3,hot_chocolate:4,latte:3,macchiato:2,mocha:4,tea:1]";
           "display c1 [0/2] -> []" ].
Proof. vm_compute. reflexivity. Qed.

Example demo_fmt_03d :
  map fmt_03d [0; 7; 12; 999; 1234; -5; -50] =
  ["000"; "007"; "012"; "999"; "1234"; "-05"; "-50"].
Proof. vm_compute. reflexivity. Qed.

Example demo_reject_full_consumes_id :
  (fun o => (out_logs o, id_counter (out_state o) !! "c1"))
    <$> enqueue "c1" "tea" demo_full
  = Some (["time=0 event=reject queue=c1 task=c1-002 reason=full"], Some 2).
Proof. vm_compute. reflexivity. Qed.

(** ** Well-formed schedulers *)

Lemma wf_init : wf init.
Proof.
  split; simpl.
  - intros qid. rewrite !lookup_empty. split; intros [? ?]; discriminate.
  - intros qid. rewrite !lookup_empty. split; intros [? ?]; discriminate.
  - intros qid. rewrite lookup_empty. split; [intros H; inversion H|].
    intros [? ?]; discriminate.
  - lia.
  - intros qid q H. rewrite lookup_empty in H. discriminate.
Qed.

Lemma is_Some_insert_iff {V W} (m1 : gmap string V) (m2 : gmap string W) k v w :
  (forall i, is_Some (m1 !! i) <-> is_Some (m2 !! i)) ->
  forall i, is_Some (<[k := v]> m1 !! i) <-> is_Some (<[k := w]> m2 !! i).
Proof.
  intros H i. destruct (decide (k = i)) as [->|Hne].
  - rewrite !lookup_insert_eq. split; eauto.
  - rewrite !lookup_insert_ne by done. apply H.
Qed.

Lemma is_Some_insert_same {V} (m : gmap string V) k v i :
  is_Some (m !! k) -> (is_Some (<[k := v]> m !! i) <-> is_Some (m !! i)).
Proof.
  intros Hk. destruct (decide (k = i)) as [->|Hne].
  - rewrite lookup_insert_eq. split; eauto.
  - rewrite lookup_insert_ne by done. reflexivity.
Qed.

Lemma create_queue_wf qid cap s : wf s -> wf (fst (create_queue qid cap s)).
Proof.
  intros [Hc Hs Ho Hi Hb]. unfold create_queue.
  destruct (queues s !! qid) as [q|] eqn:Hq; simpl; [by split|].
  split; simpl.
  - by apply is_Some_insert_iff.
  - by apply is_Some_insert_iff.
  - intros i. rewrite elem_of_app, list_elem_of_singleton.
    destruct (decide (qid = i)) as [->|Hne].
    + rewrite lookup_insert_eq. split; eauto.
    + rewrite lookup_insert_ne by done. rewrite Ho. split; [|by left].
      intros [?|?]; [done|congruence].
  - rewrite length_app. simpl. lia.
  - intros i q Hi'. destruct (decide (qid = i)) as [->|Hne].
    + rewrite lookup_insert_eq in Hi'. inversion Hi'; subst.
      unfold QueueRR_.len, QueueRR_.init. simpl. lia.
    + rewrite lookup_insert_ne in Hi' by done. by eapply Hb.
Qed.

Lemma QueueRR_enqueue_bound q t :
  QueueRR_.len q <= Z.max 0 (capacity q) ->
  QueueRR_.len (fst (QueueRR_.enqueue q t))
    <= Z.max 0 (capacity (fst (QueueRR_.enqueue q t))).
Proof.
  unfold QueueRR_.enqueue. intros H.
  destruct (QueueRR_.len q >=? capacity q) eqn:E; simpl; [done|].
  unfold QueueRR_.len in *. simpl. rewrite length_app. simpl. lia.
Qed.

Lemma QueueRR_enqueue_capacity q t :
  capacity (fst (QueueRR_.enqueue q t)) = capacity q.
Proof. unfold QueueRR_.enqueue. by destruct (_ >=? _). Qed.

Lemma enqueue_total qid item_name s :
  wf s -> is_Some (enqueue qid item_name s).
Proof.
  intros Hwf. unfold enqueue.
  destruct (queues s !! qid) as [q|] eqn:Hq; [|eauto].
  destruct (proj1 (wf_counter s Hwf qid) (ltac:(eauto))) as [c Hc].
  rewrite Hc. simpl.
  destruct (menu_get _ _); [|eauto].
  destruct (QueueRR_.enqueue _ _) as [q' []]; eauto.
Qed.

Lemma enqueue_wf qid item_name s o :
  wf s -> enqueue qid item_name s = Some o -> wf (out_state o).
Proof.
  intros Hwf. unfold enqueue.
  destruct (queues s !! qid) as [q|] eqn:Hq.
  2:{ intros [= <-]. done. }
  destruct (id_counter s !! qid) as [c|] eqn:Hc; simpl; [|done].
  assert (Hwf1 : wf (set_id_counter (<[qid:=c + 1]> (id_counter s)) s)).
  { destruct Hwf as [H1 H2 H3 H4 H5]. split; simpl; try done.
    intros i. rewrite is_Some_insert_same by eauto. apply H1. }
  destruct (menu_get _ _) as [burst|]; [|by intros [= <-]].
  pose proof (QueueRR_enqueue_bound q (mkTask (make_task_id qid (c + 1)) burst)
                (wf_bound s Hwf qid q Hq)) as Hb.
  destruct (QueueRR_.enqueue _ _) as [q' []]; intros [= <-]; simpl; [|done].
  destruct Hwf1 as [H1 H2 H3 H4 H5]. simpl in *. split; simpl; try done.
  - intros i. rewrite is_Some_insert_same by eauto. apply H1.
  - intros i. rewrite is_Some_insert_same by eauto. apply H2.
  - intros i. rewrite is_Some_insert_same by eauto. apply H3.
  - intros i q0 Hi. destruct (decide (qid = i)) as [->|Hne].
    + rewrite lookup_insert_eq in Hi. by inversion Hi; subst.
    + rewrite lookup_insert_ne in Hi by done. by eapply H5.
Qed.

Lemma mark_skip_wf qid s : wf s -> wf (fst (mark_skip qid s)).
Proof.
  intros Hwf. unfold mark_skip.
  destruct (skip_flags s !! qid) as [b|] eqn:Hf; simpl; [|done].
  destruct Hwf as [H1 H2 H3 H4 H5]. split; simpl; try done.
  intros i. rewrite is_Some_insert_same by eauto. apply H2.
Qed.

(** *** One turn *)

Lemma py_index_in_range {A} (l : list A) (i : Z) :
  0 <= i < Z.of_nat (length l) -> exists x, py_index l i = Some x /\ x ∈ l.
Proof.
  intros Hi. unfold py_index.
  replace (0 <=? i) with true by (symmetry; apply Z.leb_le; lia).
  replace (i <? Z.of_nat (length l)) with true by (symmetry; apply Z.ltb_lt; lia).
  simpl. destruct (lookup_lt_is_Some_2 l (Z.to_nat i)) as [x Hx]; [lia|].
  exists x. split; [done|]. apply list_elem_of_lookup. eauto.
Qed.

Lemma wf_visits s :
  wf s -> queue_order s <> [] -> exists qid q, visits s qid q.
Proof.
  intros Hwf Hne. pose proof (wf_index s Hwf) as Hi.
  destruct (py_index_in_range (queue_order s) (rr_index s)) as (qid & Hq & Hin).
  { destruct (queue_order s); [done|]. simpl in *. lia. }
  destruct (proj1 (wf_order s Hwf qid) Hin) as [q Hq'].
  exists qid, q. by split.
Qed.

Lemma display_queue_total s qid :
  wf s -> qid ∈ queue_order s -> is_Some (display_queue s qid).
Proof.
  intros Hwf Hin. unfold display_queue.
  destruct (proj1 (wf_order s Hwf qid) Hin) as [q Hq].
  destruct (proj1 (wf_skip s Hwf qid) (ltac:(eauto))) as [b Hb].
  rewrite Hq, Hb. simpl. eauto.
Qed.

Lemma display_total s : wf s -> is_Some (display s).
Proof.
  intros Hwf. unfold display.
  destruct (mapM (display_queue s) (queue_order s)) as [ql|] eqn:E; simpl; [eauto|].
  exfalso. assert (is_Some (mapM (display_queue s) (queue_order s))) as [? H].
  { apply mapM_is_Some. apply Forall_forall. intros x Hx.
    by apply display_queue_total. }
  congruence.
Qed.

(** The three branches of [serve], each by the condition that selects it. *)
Lemma serve_skip quantum qid q s :
  skip_flags s !! qid = Some true ->
  serve quantum qid q s
  = Some (set_skip_flags (<[qid := false]> (skip_flags s)) s, []).
Proof. intros H. unfold serve. rewrite H. done. Qed.

Lemma serve_idle quantum qid q s :
  skip_flags s !! qid = Some false -> data q = [] ->
  serve quantum qid q s = Some (s, []).
Proof.
  intros H Hd. unfold serve, QueueRR_.len. rewrite H, Hd. done.
Qed.

Lemma serve_work quantum qid q s t rest :
  skip_flags s !! qid = Some false -> data q = t :: rest ->
  let served := Z.min (remaining t) quantum in
  let t' := mkTask (task_id t) (remaining t - served) in
  let q1 := mkQueueRR (queue_id q) (capacity q) rest in
  let s1 := set_time (time s + served) (set_queues (<[qid := q1]> (queues s)) s) in
  serve quantum qid q s
  = if remaining t' >? 0 then
      Some (set_queues (<[qid := fst (QueueRR_.enqueue q1 t')]> (queues s1)) s1,
            [log_work (time s1) qid (task_id t') (remaining t')])
    else Some (s1, [log_finish (time s1) qid (task_id t')]).
Proof.
  intros H Hd. unfold serve, QueueRR_.len, QueueRR_.dequeue.
  rewrite H, Hd. simpl. reflexivity.
Qed.

Lemma serve_total quantum qid q s :
  is_Some (skip_flags s !! qid) -> is_Some (serve quantum qid q s).
Proof.
  intros [[] Hb].
  - rewrite serve_skip by done. eauto.
  - destruct (data q) as [|t rest] eqn:Hd.
    + rewrite serve_idle by done. eauto.
    + rewrite (serve_work _ _ _ _ t rest) by done. simpl.
      destruct (_ >? 0); eauto.
Qed.

Lemma serve_wf quantum qid q s s1 l :
  wf s -> queues s !! qid = Some q ->
  serve quantum qid q s = Some (s1, l) ->
  wf s1 /\ queue_order s1 = queue_order s /\ rr_index s1 = rr_index s.
Proof.
  intros Hwf Hq.
  destruct (proj1 (wf_skip s Hwf qid) (ltac:(eauto))) as [b Hb].
  destruct Hwf as [H1 H2 H3 H4 H5].
  assert (Hins : forall q', QueueRR_.len q' <= Z.max 0 (capacity q') ->
            wf (set_queues (<[qid := q']> (queues s)) s)).
  { intros q' Hq'. split; simpl; try done.
    - intros i. rewrite is_Some_insert_same by eauto. apply H1.
    - intros i. rewrite is_Some_insert_same by eauto. apply H2.
    - intros i. rewrite is_Some_insert_same by eauto. apply H3.
    - intros i q0 Hi. destruct (decide (qid = i)) as [->|Hne].
      + rewrite lookup_insert_eq in Hi. by inversion Hi; subst.
      + rewrite lookup_insert_ne in Hi by done. by eapply H5. }
  destruct b.
  - rewrite serve_skip by done. intros [= <- <-]. split; [|done].
    split; simpl; try done.
    intros i. rewrite is_Some_insert_same by eauto. apply H2.
  - destruct (data q) as [|t rest] eqn:Hd.
    + rewrite serve_idle by done. intros [= <- <-]. by split.
    + rewrite (serve_work _ _ _ _ t rest) by done. simpl.
      assert (Hrest : QueueRR_.len (mkQueueRR (queue_id q) (capacity q) rest)
                      <= Z.max 0 (capacity q)).
      { pose proof (H5 qid q Hq) as Hb'. unfold QueueRR_.len in *.
        rewrite Hd in Hb'. simpl in *. lia. }
      destruct (_ >? 0); intros [= <- <-]; (split; [|done]).
      * unfold set_queues; simpl. rewrite insert_insert_eq.
        match goal with |- context [QueueRR_.enqueue ?a ?b] =>
          pose proof (QueueRR_enqueue_bound a b Hrest) as Hb2 end.
        destruct (Hins _ Hb2). split; simpl in *; done.
      * destruct (Hins _ Hrest). split; simpl in *; done.
Qed.

Lemma run_turn_total quantum s :
  wf s -> queue_order s <> [] ->
  exists s' l, run_turn quantum (Z.of_nat (length (queue_order s))) s = Some (s', l)
               /\ wf s' /\ queue_order s' = queue_order s.
Proof.
  intros Hwf Hne. destruct (wf_visits s Hwf Hne) as (qid & q & Hv & Hq).
  unfold run_turn. rewrite Hv. simpl. rewrite Hq. simpl.
  destruct (serve_total quantum qid q s) as [[s1 l] Hs].
  { apply (wf_skip s Hwf). eauto. }
  rewrite Hs. simpl.
  destruct (serve_wf _ _ _ _ _ _ Hwf Hq Hs) as (Hwf1 & Ho & Hr).
  set (s2 := set_rr_index _ s1).
  assert (Hwf2 : wf s2).
  { destruct Hwf1 as [H1 H2 H3 H4 H5]. split; simpl; try done.
    rewrite Ho. destruct (queue_order s) as [|x l0]; [done|].
    pose proof (Z.mod_pos_bound (rr_index s1 + 1)
                  (Z.of_nat (length (x :: l0))) ltac:(simpl; lia)).
    lia. }
  destruct (display_total s2 Hwf2) as [snap Hsnap]. rewrite Hsnap. simpl.
  eexists _, _. split; [done|]. split; [done|]. done.
Qed.

(** *** The loop *)

(** The loop always returns.  It reports [k] more turns, where [k] is at
    most [todo]; the final scheduler is the one [k] turns after the start.
    With [steps] given, [k = todo].  Without, no intermediate scheduler was
    drained, and stopping short of [todo] means the final one is. *)
Lemma run_loop_spec quantum steps n :
  forall (todo : nat) (s : Scheduler) (td : Z) (logs : list string),
  wf s -> queue_order s <> [] -> n = Z.of_nat (length (queue_order s)) ->
  exists s' l' (k : nat),
    run_loop todo quantum steps n td s logs
      = Some (s', (logs ++ l'), td + Z.of_nat k)
    /\ wf s' /\ queue_order s' = queue_order s
    /\ (k <= todo)%nat /\ (0 < todo -> 0 < k)%nat
    /\ after_turns k quantum n s = Some s'
    /\ (is_Some steps -> k = todo)
    /\ (steps = None ->
        (forall (j : nat) sj, (1 <= j < k)%nat ->
            after_turns j quantum n s = Some sj -> drained sj = false)
        /\ ((k < todo)%nat -> drained s' = true)).
Proof.
  induction todo as [|todo IH]; intros s td logs Hwf Hne Hn.
  - exists s, [], 0%nat. simpl. rewrite app_nil_r, Z.add_0_r.
    split_and!; try done; try lia. intros _. split; intros; lia.
  - simpl. replace (n =? 0) with false.
    2:{ symmetry. apply Z.eqb_neq. destruct (queue_order s); [done|simpl in *; lia]. }
    destruct (run_turn_total quantum s Hwf Hne) as (s1 & l1 & Ht & Hwf1 & Ho1).
    rewrite <- Hn in Ht. rewrite Ht. simpl.
    assert (Hne1 : queue_order s1 <> []) by (by rewrite Ho1).
    assert (Hn1 : n = Z.of_nat (length (queue_order s1))) by (by rewrite Ho1).
    destruct (IH s1 (td + 1) (logs ++ l1) Hwf1 Hne1 Hn1)
      as (s' & l' & k & Hrun & Hwf' & Ho' & Hk & Hpos & Hafter & Hsome & Hnone).
    assert (Hcont : exists s' l' (k : nat),
      run_loop todo quantum steps n (td + 1) s1 (logs ++ l1)
        = Some (s', (logs ++ l'), td + Z.of_nat k)
      /\ wf s' /\ queue_order s' = queue_order s
      /\ (k <= S todo)%nat /\ (0 < k)%nat
      /\ after_turns k quantum n s = Some s'
      /\ (is_Some steps -> k = S todo)
      /\ (steps = None -> drained s1 = false ->
          (forall (j : nat) sj, (1 <= j < k)%nat ->
              after_turns j quantum n s = Some sj -> drained sj = false)
          /\ ((k < S todo)%nat -> drained s' = true))).
    { exists s', (l1 ++ l'), (S k). rewrite Hrun.
      split. { f_equal. f_equal; [by rewrite app_assoc | lia]. }
      split; [done|]. split; [congruence|]. split; [lia|]. split; [lia|].
      split. { simpl. rewrite Ht. simpl. done. }
      split. { intros Hs. f_equal. by apply Hsome. }
      intros Hs Hd1. destruct (Hnone Hs) as [Hmid Hend]. split.
      - intros j sj Hj. destruct j as [|j]; [lia|]. simpl. rewrite Ht. simpl.
        destruct j as [|j].
        + simpl. intros [= <-]. done.
        + intros Hsj. eapply (Hmid (S j)); [lia|done].
      - intros Hlt. apply Hend. lia. }
    destruct steps as [st|].
    + destruct Hcont as (s2 & l2 & k2 & H1 & H2 & H3 & H4 & H5 & H6 & H7 & H8).
      exists s2, l2, k2. split_and!; try done.
    + destruct (drained s1) eqn:Hd.
      * exists s1, l1, 1%nat. split; [done|]. split; [done|]. split; [done|].
        split; [lia|]. split; [lia|]. split. { simpl. rewrite Ht. done. }
        split. { intros [? ?]; done. }
        intros _. split; [intros; lia | done].
      * destruct Hcont as (s2 & l2 & k2 & H1 & H2 & H3 & H4 & H5 & H6 & H7 & H8).
        exists s2, l2, k2. destruct (H8 eq_refl eq_refl) as [H9 H10].
        split_and!; try done.
Qed.

Lemma run_counting_wf quantum steps s r :
  wf s -> run_counting quantum steps s = Some r -> wf (fst (fst r)).
Proof.
  intros Hwf. unfold run_counting.
  destruct (Z.of_nat (length (queue_order s)) =? 0) eqn:En.
  { by intros [= <-]. }
  assert (Hne : queue_order s <> []).
  { intros E. rewrite E in En. simpl in En. done. }
  destruct steps as [st|].
  - destruct (_ || _); [by intros [= <-]|].
    destruct (run_loop_spec quantum (Some st) _ (Z.to_nat st) s 0 [] Hwf Hne eq_refl)
      as (s' & l' & k & Hrun & Hwf' & _).
    rewrite Hrun. by intros [= <-].
  - destruct (run_loop_spec quantum None _
                (Z.to_nat (Z.of_nat (length (queue_order s)) * 100)) s 0 []
                Hwf Hne eq_refl)
      as (s' & l' & k & Hrun & Hwf' & _).
    rewrite Hrun. by intros [= <-].
Qed.

Lemma exec_op_wf o s s' : wf s -> exec_op o s = Some s' -> wf s'.
Proof.
  intros Hwf. destruct o as [qid cap|qid item|qid|quantum steps]; simpl.
  - intros [= <-]. by apply create_queue_wf.
  - destruct (enqueue qid item s) as [o|] eqn:E; simpl; [|done].
    intros [= <-]. by eapply enqueue_wf.
  - intros [= <-]. by apply mark_skip_wf.
  - unfold run. destruct (run_counting quantum steps s) as [r|] eqn:E; simpl; [|done].
    intros [= <-]. by eapply run_counting_wf.
Qed.

Lemma exec_ops_wf os : forall s s', wf s -> exec_ops os s = Some s' -> wf s'.
Proof.
  induction os as [|o os IH]; intros s s' Hwf; simpl.
  - by intros [= <-].
  - destruct (exec_op o s) as [s1|] eqn:E; simpl; [|done].
    apply IH. by eapply exec_op_wf.
Qed.

Lemma reachable_wf s : reachable s -> wf s.
Proof. intros [os H]. eapply exec_ops_wf; [apply wf_init | exact H]. Qed.

(** No operation raises on a well-formed scheduler. *)
Lemma exec_op_total o s : wf s -> is_Some (exec_op o s).
Proof.
  intros Hwf. destruct o as [qid cap|qid item|qid|quantum steps]; simpl; eauto.
  - destruct (enqueue_total qid item s Hwf) as [o ->]. simpl. eauto.
  - unfold run, run_counting.
    destruct (Z.of_nat (length (queue_order s)) =? 0) eqn:En; [simpl; eauto|].
    assert (Hne : queue_order s <> []).
    { intros E. rewrite E in En. simpl in En. done. }
    destruct steps as [st|].
    + destruct (_ || _); [simpl; eauto|].
      destruct (run_loop_spec quantum (Some st) _ (Z.to_nat st) s 0 [] Hwf Hne eq_refl)
        as (s' & l' & k & Hrun & _).
      rewrite Hrun. simpl. eauto.
    + destruct (run_loop_spec quantum None _
                  (Z.to_nat (Z.of_nat (length (queue_order s)) * 100)) s 0 []
                  Hwf Hne eq_refl)
        as (s' & l' & k & Hrun & _).
      rewrite Hrun. simpl. eauto.
Qed.

Lemma after_turns_wf quantum k : forall s s',
  wf s -> queue_order s <> [] ->
  after_turns k quantum (Z.of_nat (length (queue_order s))) s = Some s' ->
  wf s' /\ queue_order s' = queue_order s.
Proof.
  induction k as [|k IH]; intros s s' Hwf Hne; simpl.
  - by intros [= <-].
  - destruct (run_turn_total quantum s Hwf Hne) as (s1 & l1 & Ht & Hwf1 & Ho1).
    rewrite Ht. simpl. intros Hk. rewrite <- Ho1 in Hk.
    destruct (IH s1 s' Hwf1 ltac:(by rewrite Ho1) Hk) as [? ?].
    split; [done|congruence].
Qed.

Lemma after_turns_prefix quantum n k : forall (j : nat) s s',
  after_turns k quantum n s = Some s' -> (j <= k)%nat ->
  is_Some (after_turns j quantum n s).
Proof.
  induction k as [|k IH]; intros j s s' Hk Hj.
  - replace j with 0%nat by lia. simpl. eauto.
  - destruct j as [|j]; [simpl; eauto|]. simpl in *.
    destruct (run_turn quantum n s) as [[s1 l1]|]; simpl in *; [|done].
    eapply IH; [done|lia].
Qed.

(** ** Admission *)

(** [enqueue] on a registered queue, with the counter read as [c]. *)
Lemma enqueue_registered qid item_name s q c :
  queues s !! qid = Some q -> id_counter s !! qid = Some c ->
  let s1 := set_id_counter (<[qid := c + 1]> (id_counter s)) s in
  let tid := make_task_id qid (c + 1) in
  enqueue qid item_name s =
  match menu_get (_menu s) item_name with
  | None => Some (mkOutcome s1 [log_reject (time s) qid tid "unknown_item"]
                            [msg_unknown_item])
  | Some burst =>
      if QueueRR_.len q >=? capacity q then
        Some (mkOutcome s1 [log_reject (time s) qid tid "full"] [msg_full])
      else
        Some (mkOutcome
                (set_queues (<[qid := mkQueueRR (queue_id q) (capacity q)
                                        (data q ++ [mkTask tid burst])]>
                               (queues s)) s1)
                [log_enqueue (time s) qid tid burst] [])
  end.
Proof.
  intros Hq Hc. unfold enqueue. rewrite Hq, Hc. simpl.
  destruct (menu_get (_menu s) item_name) as [burst|]; [|done].
  unfold QueueRR_.enqueue. by destruct (_ >=? _).
Qed.

Lemma demo1_wf : wf demo1.
Proof. apply create_queue_wf, wf_init. Qed.

Lemma demo_full_reachable : reachable demo_full.
Proof.
  exists [OCreate "c1" 1; OEnqueue "c1" "latte"]. vm_compute. reflexivity.
Defined.

(** *** Task ids determine the counter *)

Lemma pretty_N_char_digit (y : N) :
  y <> 0%N -> pretty_N_char y <> "0"%char /\ pretty_N_char y <> "-"%char.
Proof.
  destruct y as [|p]; [done|]. intros _. unfold pretty_N_char.
  do 4 (try destruct p as [p|p|]); by split.
Qed.

Lemma pretty_N_go_head (x : N) : forall s,
  (0 < x)%N ->
  exists c r, pretty_N_go x s = String c r /\ c <> "0"%char /\ c <> "-"%char.
Proof.
  induction (N.lt_wf_0 x) as [x _ IH]; intros s Hx.
  rewrite pretty_N_go_step by done.
  destruct (N.eq_dec (x `div` 10)%N 0%N) as [Hsmall|Hbig].
  - rewrite Hsmall, pretty_N_go_0. eexists _, _. split; [done|].
    apply pretty_N_char_digit.
    rewrite N.mod_small by (apply N.div_small_iff; done). clear IH; lia.
  - apply IH; [apply N.div_lt; lia | by apply N.neq_0_lt_0].
Qed.

Lemma str_int_pos_head (z : Z) :
  0 < z -> exists c r, str_int z = String c r /\ c <> "0"%char /\ c <> "-"%char.
Proof.
  destruct z as [|p|p]; try lia. intros _.
  unfold str_int, pretty, pretty_Z, pretty, pretty_positive, pretty, pretty_N.
  destruct (decide (N.pos p = 0)%N); [done|]. apply pretty_N_go_head. lia.
Qed.

Lemma lstrip0_zeros (k : nat) (s : string) :
  lstrip0 (zeros k +:+ s) = lstrip0 s.
Proof. induction k as [|k IH]; simpl; done. Qed.

Lemma lstrip0_fmt (z : Z) :
  0 <= z -> lstrip0 (fmt_03d z) = if decide (z = 0) then "" else str_int z.
Proof.
  intros Hz. unfold fmt_03d.
  replace (z <? 0) with false by (symmetry; apply Z.ltb_ge; lia).
  cbv zeta. rewrite lstrip0_zeros. destruct (decide (z = 0)) as [->|Hne]; [done|].
  destruct (str_int_pos_head z) as (c & r & -> & Hc & _); [lia|].
  simpl. destruct (Ascii.eqb_spec c "0"); done.
Qed.

Lemma fmt_03d_nonneg_head (z : Z) :
  0 <= z -> exists c r, fmt_03d z = String c r /\ c <> "-"%char.
Proof.
  intros Hz. unfold fmt_03d.
  replace (z <? 0) with false by (symmetry; apply Z.ltb_ge; lia). cbv zeta.
  destruct (3 - String.length (str_int z))%nat as [|k]; simpl.
  - destruct (decide (z = 0)) as [->|Hne]; [by eexists _, _|].
    destruct (str_int_pos_head z) as (c & r & -> & _ & Hc); [lia|]. by eexists _, _.
  - by eexists _, _.
Qed.

(** Two counters that print the same under [:03d] are the same counter. *)
Lemma fmt_03d_inj (z1 z2 : Z) : fmt_03d z1 = fmt_03d z2 -> z1 = z2.
Proof.
  assert (Hnn : forall a b, 0 <= a -> 0 <= b -> fmt_03d a = fmt_03d b -> a = b).
  { intros a b Ha Hb E. apply (f_equal lstrip0) in E.
    rewrite !lstrip0_fmt in E by done.
    destruct (decide (a = 0)) as [->|Hane], (decide (b = 0)) as [->|Hbne]; try done.
    - destruct (str_int_pos_head b) as (c & r & Hr & _); [lia|]. congruence.
    - destruct (str_int_pos_head a) as (c & r & Hr & _); [lia|]. congruence.
    - by apply (inj pretty). }
  assert (Hneg : forall a, a < 0 ->
            fmt_03d a
            = String "-" (zeros (2 - String.length (str_int (- a)))
                          +:+ str_int (- a))).
  { intros a Ha. unfold fmt_03d.
    by replace (a <? 0) with true by (symmetry; apply Z.ltb_lt; lia). }
  assert (Hstrip : forall a, a < 0 ->
            lstrip0 (zeros (2 - String.length (str_int (- a))) +:+ str_int (- a))
            = str_int (- a)).
  { intros a Ha. rewrite lstrip0_zeros.
    destruct (str_int_pos_head (- a)) as (c & r & -> & Hc & _); [lia|].
    simpl. destruct (Ascii.eqb_spec c "0"); done. }
  destruct (Z_lt_le_dec z1 0) as [H1|H1], (Z_lt_le_dec z2 0) as [H2|H2].
  - rewrite (Hneg z1), (Hneg z2) by done. intros [= E].
    apply (f_equal lstrip0) in E. rewrite !Hstrip in E by done.
    apply (inj pretty) in E. lia.
  - rewrite (Hneg z1) by done.
    destruct (fmt_03d_nonneg_head z2 H2) as (c & r & -> & Hc). intros [= E _]. done.
  - rewrite (Hneg z2) by done.
    destruct (fmt_03d_nonneg_head z1 H1) as (c & r & -> & Hc). intros [= E _]. done.
  - by apply Hnn.
Qed.

Lemma make_task_id_inj (qid : string) (c1 c2 : Z) :
  make_task_id qid c1 = make_task_id qid c2 -> c1 = c2.
Proof.
  unfold make_task_id. intros E. apply (inj (String.app qid)) in E.
  injection E as E. by apply fmt_03d_inj.
Qed.

(** C1: on a registered queue, [enqueue] raises the queue's counter by
    exactly one and builds the task id from the new value, whichever of the
    three outcomes (unknown item, full, accepted) follows: the id in the
    returned line is the queue id, a dash and the new counter padded to
    three digits, and no other counter value gives that id.  On an
    unregistered queue the scheduler, its counters included, is returned
    unchanged with no log line. *)
Theorem enqueue_counter (s : Scheduler) (qid item_name : string) :
  wf s ->
  (forall q, queues s !! qid = Some q ->
     exists c o line,
       id_counter s !! qid = Some c /\
       enqueue qid item_name s = Some o /\
       id_counter (out_state o) = <[qid := c + 1]> (id_counter s) /\
       id_counter (out_state o) !! qid = Some (c + 1) /\
       out_logs o = [line] /\
       let tid := qid +:+ "-" +:+ fmt_03d (c + 1) in
       (forall c', make_task_id qid c' = tid -> c' = c + 1) /\
       ((menu_get (_menu s) item_name = None /\
         line = "time=" +:+ str_int (time s) +:+ " event=reject queue=" +:+ qid
                +:+ " task=" +:+ tid +:+ " reason=unknown_item")
        \/ (exists burst, menu_get (_menu s) item_name = Some burst /\
              QueueRR_.len q >= capacity q /\
              line = "time=" +:+ str_int (time s) +:+ " event=reject queue="
                     +:+ qid +:+ " task=" +:+ tid +:+ " reason=full")
        \/ (exists burst, menu_get (_menu s) item_name = Some burst /\
              QueueRR_.len q < capacity q /\
              line = "time=" +:+ str_int (time s) +:+ " event=enqueue queue="
                     +:+ qid +:+ " task=" +:+ tid +:+ " remaining="
                     +:+ str_int burst /\
              (data <$> queues (out_state o) !! qid)
                = Some (data q ++ [mkTask tid burst]))))
  /\ (queues s !! qid = None ->
      enqueue qid item_name s = Some (mkOutcome s [] [])).
Proof.
  intros Hwf. split.
  - intros q Hq.
    destruct (proj1 (wf_counter s Hwf qid) (ltac:(eauto))) as [c Hc].
    rewrite (enqueue_registered qid item_name s q c Hq Hc).
    assert (Hid : forall c', make_task_id qid c'
                             = qid +:+ "-" +:+ fmt_03d (c + 1) -> c' = c + 1).
    { intros c' H. by apply (make_task_id_inj qid). }
    assert (Hpre : forall o line (P : Prop),
              id_counter (out_state o) = <[qid := c + 1]> (id_counter s) ->
              out_logs o = [line] -> P ->
              id_counter (out_state o) = <[qid := c + 1]> (id_counter s) /\
              id_counter (out_state o) !! qid = Some (c + 1) /\
              out_logs o = [line] /\
              (forall c', make_task_id qid c'
                          = qid +:+ "-" +:+ fmt_03d (c + 1) -> c' = c + 1) /\ P).
    { intros o line P Ho Hl HP. split_and!; try done.
      by rewrite Ho, lookup_insert_eq. }
    exists c. destruct (menu_get (_menu s) item_name) as [burst|] eqn:Hm.
    + destruct (QueueRR_.len q >=? capacity q) eqn:Hfull.
      * eexists _, _. split; [done|]. split; [done|]. cbv zeta.
        apply Hpre; [done|done|].
        right; left. exists burst. split_and!; try done.
        apply Z.geb_le in Hfull. lia.
      * eexists _, _. split; [done|]. split; [done|]. cbv zeta.
        apply Hpre; [done|done|].
        right; right. exists burst. split_and!; try done.
        { rewrite Z.geb_leb in Hfull. apply Z.leb_gt in Hfull. lia. }
        simpl. by rewrite lookup_insert_eq.
    + eexists _, _. split; [done|]. split; [done|]. cbv zeta.
      apply Hpre; [done|done|]. by left.
  - intros Hq. unfold enqueue. by rewrite Hq.
Qed.

Lemma enqueue_counter_witness :
  ((fun o => (out_logs o, id_counter (out_state o) !! "c1"))
     <$> enqueue "c1" "tea" demo1)
  = Some (["time=0 event=enqueue queue=c1 task=c1-001 remaining=1"], Some 1)
  /\
  ((fun o => (out_logs o, id_counter (out_state o) !! "c1"))
     <$> enqueue "c1" "tea" demo_full)
  = Some (["time=0 event=reject queue=c1 task=c1-002 reason=full"], Some 2)
  /\
  ((fun o => (out_logs o, id_counter (out_state o) !! "c1"))
     <$> enqueue "c1" "pizza" demo_full)
  = Some (["time=0 event=reject queue=c1 task=c1-002 reason=unknown_item"], Some 2)
  /\
  enqueue "c9" "tea" demo_full = Some (mkOutcome demo_full [] []).
Proof.
  assert (Hfull : wf demo_full) by apply (reachable_wf _ demo_full_reachable).
  split_and!.
  - destruct (proj1 (enqueue_counter demo1 "c1" "tea" demo1_wf)
                (QueueRR_.init "c1" 2) ltac:(vm_compute; reflexivity))
      as (c & o & line & Hc & He & _ & Hc' & Hl & _ & Hline).
    assert (c = 0) as -> by (vm_compute in Hc; congruence).
    rewrite He. simpl. rewrite Hl, Hc'. do 3 f_equal.
    destruct Hline as [[Hm _]|[(b & _ & Hlen & _)|(b & Hm & _ & -> & _)]].
    + vm_compute in Hm. discriminate.
    + vm_compute in Hlen. by destruct Hlen.
    + assert (b = 1) as -> by (vm_compute in Hm; congruence).
      vm_compute. reflexivity.
  - destruct (proj1 (enqueue_counter demo_full "c1" "tea" Hfull)
                (mkQueueRR "c1" 1 [mkTask "c1-001" 3])
                ltac:(vm_compute; reflexivity))
      as (c & o & line & Hc & He & _ & Hc' & Hl & _ & Hline).
    assert (c = 1) as -> by (vm_compute in Hc; congruence).
    rewrite He. simpl. rewrite Hl, Hc'. do 3 f_equal.
    destruct Hline as [[Hm _]|[(b & _ & _ & ->)|(b & _ & Hlen & _)]].
    + vm_compute in Hm. discriminate.
    + vm_compute. reflexivity.
    + vm_compute in Hlen. discriminate.
  - destruct (proj1 (enqueue_counter demo_full "c1" "pizza" Hfull)
                (mkQueueRR "c1" 1 [mkTask "c1-001" 3])
                ltac:(vm_compute; reflexivity))
      as (c & o & line & Hc & He & _ & Hc' & Hl & _ & Hline).
    assert (c = 1) as -> by (vm_compute in Hc; congruence).
    rewrite He. simpl. rewrite Hl, Hc'. do 3 f_equal.
    destruct Hline as [[_ ->]|[(b & Hm & _)|(b & Hm & _)]].
    + vm_compute. reflexivity.
    + vm_compute in Hm. discriminate.
    + vm_compute in Hm. discriminate.
  - apply (proj2 (enqueue_counter demo_full "c9" "tea" Hfull)).
    vm_compute. reflexivity.
Defined.

(** C3, as stated, fails: a rejected request is logged and answered with the
    advisory message, yet the scheduler afterwards differs from the one
    before, because the queue's counter has moved from 0 to 1. *)
Lemma enqueue_reject_changes_state :
  exists o,
    enqueue "c1" "pizza" demo1 = Some o /\
    is_reject o "c1" /\
    out_logs o = ["time=0 event=reject queue=c1 task=c1-001 reason=unknown_item"] /\
    out_printed o = [msg_unknown_item] /\
    id_counter demo1 !! "c1" = Some 0 /\
    id_counter (out_state o) !! "c1" = Some 1 /\
    out_state o <> demo1.
Proof.
  eexists. split; [vm_compute; reflexivity|]. split_and!.
  - exists "c1-001", "unknown_item". split; [by left|]. vm_compute. reflexivity.
  - vm_compute. reflexivity.
  - reflexivity.
  - vm_compute. reflexivity.
  - vm_compute. reflexivity.
  - intros E. apply (f_equal (fun s => id_counter s !! "c1")) in E.
    vm_compute in E. discriminate.
Qed.

(** C3, amended: a rejected [enqueue] on a registered queue (item not on the
    menu, or queue at capacity) returns the one reject line and prints the
    advisory message; the scheduler afterwards is the one before with that
    queue's counter raised by one, every other component (time, queues,
    order, skip flags, cursor, menu) unchanged. *)
Theorem enqueue_reject_frame (s : Scheduler) (qid item_name : string) (q : QueueRR) :
  wf s ->
  queues s !! qid = Some q ->
  (menu_get (_menu s) item_name = None \/ QueueRR_.len q >= capacity q) ->
  exists c reason msg,
    id_counter s !! qid = Some c /\
    ((menu_get (_menu s) item_name = None /\
      reason = "unknown_item" /\ msg = msg_unknown_item)
     \/ (is_Some (menu_get (_menu s) item_name) /\
         reason = "full" /\ msg = msg_full)) /\
    enqueue qid item_name s
    = Some (mkOutcome
              (mkScheduler (time s) (queues s) (queue_order s)
                           (<[qid := c + 1]> (id_counter s))
                           (skip_flags s) (rr_index s) (_menu s))
              [log_reject (time s) qid (make_task_id qid (c + 1)) reason]
              [msg]).
Proof.
  intros Hwf Hq Hrej.
  destruct (proj1 (wf_counter s Hwf qid) (ltac:(eauto))) as [c Hc].
  rewrite (enqueue_registered qid item_name s q c Hq Hc).
  exists c. destruct (menu_get (_menu s) item_name) as [burst|] eqn:Hm.
  - destruct Hrej as [Hrej|Hrej]; [done|].
    replace (QueueRR_.len q >=? capacity q) with true
      by (symmetry; rewrite Z.geb_leb; apply Z.leb_le; lia).
    exists "full", msg_full. split_and!; try done. right. eauto.
  - exists "unknown_item", msg_unknown_item. split_and!; try done. by left.
Qed.

Lemma enqueue_reject_frame_witness :
  exists c reason msg,
    id_counter demo_full !! "c1" = Some c /\
    enqueue "c1" "tea" demo_full
    = Some (mkOutcome
              (mkScheduler (time demo_full) (queues demo_full)
                           (queue_order demo_full)
                           (<["c1" := c + 1]> (id_counter demo_full))
                           (skip_flags demo_full) (rr_index demo_full)
                           (_menu demo_full))
              [log_reject (time demo_full) "c1" (make_task_id "c1" (c + 1)) reason]
              [msg]).
Proof.
  destruct (enqueue_reject_frame demo_full "c1" "tea"
              (mkQueueRR "c1" 1 [mkTask "c1-001" 3])
              (reachable_wf _ demo_full_reachable)
              ltac:(vm_compute; reflexivity)
              ltac:(right; vm_compute; discriminate))
    as (c & reason & msg & H1 & _ & H2).
  exists c, reason, msg. split; done.
Defined.

(** ** Capacity *)

(** C4, as stated, fails: nothing validates the capacity handed to
    [create_queue], so one call with a negative capacity reaches a scheduler
    whose (empty) queue holds more tasks than its capacity. *)
Lemma negative_capacity_exceeded :
  let s := fst (create_queue "c1" (-1) init) in
  reachable s /\
  exists q, queues s !! "c1" = Some q /\ capacity q < QueueRR_.len q.
Proof.
  split.
  - exists [OCreate "c1" (-1)]. reflexivity.
  - exists (QueueRR_.init "c1" (-1)). split; [vm_compute; reflexivity|].
    vm_compute. reflexivity.
Qed.

(** C4, amended: in every reachable scheduler each queue holds at most
    [max(capacity, 0)] tasks, hence at most [capacity] whenever the capacity
    is not negative; and enqueueing a known item on a queue that already
    holds capacity-many tasks returns the reject line with reason full and
    leaves every queue's contents as they were. *)
Theorem queue_within_capacity (s : Scheduler) (qid : string) (q : QueueRR) :
  reachable s ->
  queues s !! qid = Some q ->
  QueueRR_.len q <= Z.max 0 (capacity q) /\
  (0 <= capacity q -> QueueRR_.len q <= capacity q) /\
  (QueueRR_.len q = capacity q ->
   forall item_name, is_Some (menu_get (_menu s) item_name) ->
     exists c o,
       id_counter s !! qid = Some c /\
       enqueue qid item_name s = Some o /\
       out_logs o = [log_reject (time s) qid (make_task_id qid (c + 1)) "full"] /\
       queues (out_state o) = queues s).
Proof.
  intros Hr Hq. pose proof (reachable_wf s Hr) as Hwf.
  pose proof (wf_bound s Hwf qid q Hq) as Hb.
  split; [done|]. split; [lia|].
  intros Hlen item_name [burst Hm].
  destruct (proj1 (wf_counter s Hwf qid) (ltac:(eauto))) as [c Hc].
  exists c. rewrite (enqueue_registered qid item_name s q c Hq Hc), Hm.
  replace (QueueRR_.len q >=? capacity q) with true
    by (symmetry; rewrite Z.geb_leb; apply Z.leb_le; lia).
  eexists. split_and!; done.
Qed.

Lemma queue_within_capacity_witness :
  QueueRR_.len (mkQueueRR "c1" 1 [mkTask "c1-001" 3]) <= 1 /\
  exists c o,
    id_counter demo_full !! "c1" = Some c /\
    enqueue "c1" "tea" demo_full = Some o /\
    out_logs o = [log_reject (time demo_full) "c1" (make_task_id "c1" (c + 1)) "full"] /\
    queues (out_state o) = queues demo_full.
Proof.
  destruct (queue_within_capacity demo_full "c1"
              (mkQueueRR "c1" 1 [mkTask "c1-001" 3])
              demo_full_reachable ltac:(vm_compute; reflexivity))
    as (_ & H1 & H2).
  split.
  - apply H1. simpl. lia.
  - apply (H2 ltac:(reflexivity) "tea"). vm_compute. eauto.
Defined.

(** ** Dispatch turns *)

(** Once the head is taken off a queue that respects its bound, the
    capacity test of [QueueRR.enqueue] passes. *)
Lemma reinsert_ok (q : QueueRR) (t t' : Task) (rest : list Task) :
  QueueRR_.len q <= Z.max 0 (capacity q) ->
  data q = t :: rest ->
  QueueRR_.dequeue q = (mkQueueRR (queue_id q) (capacity q) rest, Some t) /\
  QueueRR_.len (mkQueueRR (queue_id q) (capacity q) rest) < capacity q /\
  QueueRR_.enqueue (mkQueueRR (queue_id q) (capacity q) rest) t'
  = (mkQueueRR (queue_id q) (capacity q) (rest ++ [t']), true).
Proof.
  intros Hb Hd. unfold QueueRR_.dequeue, QueueRR_.enqueue, QueueRR_.len in *.
  rewrite Hd in *. simpl in *. split; [done|]. split; [lia|].
  replace (_ >=? _) with false; [done|].
  symmetry. rewrite Z.geb_leb. apply Z.leb_gt. lia.
Qed.

Lemma run_turn_unfold quantum n s qid q s1 l_ev :
  wf s -> visits s qid q ->
  serve quantum qid q s = Some (s1, l_ev) ->
  exists snap,
    display (set_rr_index ((rr_index s + 1) mod n) s1) = Some snap /\
    run_turn quantum n s
    = Some (set_rr_index ((rr_index s + 1) mod n) s1,
            log_run (time s) qid :: l_ev ++ snap).
Proof.
  intros Hwf [Hv Hq] Hs. unfold run_turn. rewrite Hv. simpl. rewrite Hq. simpl.
  rewrite Hs. simpl.
  destruct (serve_wf _ _ _ _ _ _ Hwf Hq Hs) as (Hwf1 & Ho & Hr).
  rewrite Hr.
  set (s2 := set_rr_index _ s1).
  assert (Hd : is_Some (display s2)).
  { unfold display.
    destruct (mapM (display_queue s2) (queue_order s2)) as [ql|] eqn:E;
      simpl; [eauto|].
    exfalso. assert (is_Some (mapM (display_queue s2) (queue_order s2))) as [? H].
    { apply mapM_is_Some. apply Forall_forall. intros x Hx.
      unfold display_queue. simpl.
      destruct (proj1 (wf_order s1 Hwf1 x) Hx) as [qx Hqx].
      destruct (proj1 (wf_skip s1 Hwf1 x) (ltac:(eauto))) as [b Hb].
      rewrite Hqx, Hb. simpl. eauto. }
    congruence. }
  destruct Hd as [snap Hsnap]. exists snap. rewrite Hsnap. done.
Qed.

(** C2: a turn that finds the skip flag clear and a task [t] at the head
    takes [t] off the queue, serves [min(remaining, quantum)], lowers the
    task's remaining time and raises the clock by that amount; a task with
    time left goes to the tail of the same queue with a work line carrying
    the new remaining time, a finished task is in no queue afterwards and a
    finish line is logged. *)
Theorem turn_work (s : Scheduler) (quantum : Z) (qid : string) (q : QueueRR)
    (t : Task) (rest : list Task) :
  wf s ->
  0 < quantum ->
  visits s qid q ->
  skip_flags s !! qid = Some false ->
  data q = t :: rest ->
  let n := Z.of_nat (length (queue_order s)) in
  let serviced := Z.min (remaining t) quantum in
  let t' := mkTask (task_id t) (remaining t - serviced) in
  let contents := if remaining t' >? 0 then rest ++ [t'] else rest in
  let event :=
    if remaining t' >? 0
    then "time=" +:+ str_int (time s + serviced) +:+ " event=work queue="
         +:+ qid +:+ " task=" +:+ task_id t +:+ " remaining="
         +:+ str_int (remaining t')
    else "time=" +:+ str_int (time s + serviced) +:+ " event=finish queue="
         +:+ qid +:+ " task=" +:+ task_id t in
  let s' :=
    mkScheduler (time s + serviced)
                (<[qid := mkQueueRR (queue_id q) (capacity q) contents]> (queues s))
                (queue_order s) (id_counter s) (skip_flags s)
                ((rr_index s + 1) mod n) (_menu s) in
  exists snap,
    display s' = Some snap /\
    run_turn quantum n s
    = Some (s', ("time=" +:+ str_int (time s) +:+ " event=run queue=" +:+ qid)
                :: event :: snap).
Proof.
  intros Hwf Hquantum Hv Hflag Hd n serviced t' contents event s'.
  pose proof (wf_bound s Hwf qid q (proj2 Hv)) as Hb.
  destruct (reinsert_ok q t t' rest Hb Hd) as (_ & _ & Hre).
  pose proof (serve_work quantum qid q s t rest Hflag Hd) as Hs.
  simpl in Hs. fold serviced in Hs. fold t' in Hs. rewrite Hre in Hs. simpl in Hs.
  subst contents event s' t'. cbn [remaining task_id] in *.
  destruct (remaining t - serviced >? 0) eqn:Hpos.
  - destruct (run_turn_unfold quantum n s qid q _ _ Hwf Hv Hs) as (snap & H1 & H2).
    unfold set_queues, set_time, set_rr_index in *. simpl in *.
    rewrite insert_insert_eq in *. exists snap. split; done.
  - destruct (run_turn_unfold quantum n s qid q _ _ Hwf Hv Hs) as (snap & H1 & H2).
    unfold set_queues, set_time, set_rr_index in *. simpl in *.
    exists snap. split; done.
Qed.

Lemma demo_full_visits :
  visits demo_full "c1" (mkQueueRR "c1" 1 [mkTask "c1-001" 3]).
Proof. split; vm_compute; reflexivity. Qed.

Lemma turn_work_witness :
  ((fun r => (time (fst r), queues (fst r) !! "c1", rr_index (fst r), snd r))
     <$> run_turn 1 1 demo_full)
  = Some (1, Some (mkQueueRR "c1" 1 [mkTask "c1-001" 2]), 0,
          [ "time=0 event=run queue=c1";
            "time=1 event=work queue=c1 task=c1-001 remaining=2";
            "display time=1 next=c1";
            "display menu=[americano:2,cappuccino:3,hot_chocolate:4,latte:3,macchiato:2,mocha:4,tea:1]";
            "display c1 [1/1] -> [c1-001:2]" ])
  /\
  ((fun r => (time (fst r), queues (fst r) !! "c1", rr_index (fst r), snd r))
     <$> run_turn 5 1 demo_full)
  = Some (3, Some (mkQueueRR "c1" 1 []), 0,
          [ "time=0 event=run queue=c1";
            "time=3 event=finish queue=c1 task=c1-001";
            "display time=3 next=c1";
            "display menu=[americano:2,cappuccino:3,hot_chocolate:4,latte:3,macchiato:2,mocha:4,tea:1]";
            "display c1 [0/1] -> []" ]).
Proof.
  split.
  - destruct (turn_work demo_full 1 "c1" (mkQueueRR "c1" 1 [mkTask "c1-001" 3])
                (mkTask "c1-001" 3) []
                (reachable_wf _ demo_full_reachable) ltac:(lia)
                demo_full_visits ltac:(vm_compute; reflexivity)
                ltac:(reflexivity))
      as (snap & Hsnap & Hrun).
    vm_compute in Hsnap. injection Hsnap as <-.
    etrans; [exact (f_equal _ Hrun)|]. vm_compute. reflexivity.
  - destruct (turn_work demo_full 5 "c1" (mkQueueRR "c1" 1 [mkTask "c1-001" 3])
                (mkTask "c1-001" 3) []
                (reachable_wf _ demo_full_reachable) ltac:(lia)
                demo_full_visits ltac:(vm_compute; reflexivity)
                ltac:(reflexivity))
      as (snap & Hsnap & Hrun).
    vm_compute in Hsnap. injection Hsnap as <-.
    etrans; [exact (f_equal _ Hrun)|]. vm_compute. reflexivity.
Defined.

(** C8: in a work turn the re-insertion cannot be refused.  Taking the head
    off leaves strictly fewer tasks than the capacity, so [QueueRR.enqueue]
    returns true, and after the turn's service step the preempted task sits
    at the tail of its queue: nothing is dropped although the returned flag
    is never looked at. *)
Theorem reinsert_never_fails (s : Scheduler) (quantum : Z) (qid : string)
    (q : QueueRR) (t : Task) (rest : list Task) :
  wf s ->
  queues s !! qid = Some q ->
  skip_flags s !! qid = Some false ->
  data q = t :: rest ->
  let serviced := Z.min (remaining t) quantum in
  let t' := mkTask (task_id t) (remaining t - serviced) in
  remaining t' > 0 ->
  let q1 := fst (QueueRR_.dequeue q) in
  snd (QueueRR_.dequeue q) = Some t /\
  QueueRR_.len q1 < capacity q1 /\
  QueueRR_.enqueue q1 t'
  = (mkQueueRR (queue_id q) (capacity q) (rest ++ [t']), true) /\
  exists s1 l,
    serve quantum qid q s = Some (s1, l) /\
    queues s1 !! qid = Some (mkQueueRR (queue_id q) (capacity q) (rest ++ [t'])).
Proof.
  intros Hwf Hq Hflag Hd serviced t' Hpos q1.
  destruct (reinsert_ok q t t' rest (wf_bound s Hwf qid q Hq) Hd) as (H1 & H2 & H3).
  subst q1. rewrite H1. simpl fst. simpl snd. split_and!; try done.
  pose proof (serve_work quantum qid q s t rest Hflag Hd) as Hs.
  simpl in Hs. fold serviced in Hs. fold t' in Hs. rewrite H3 in Hs.
  subst t'. cbn [remaining task_id] in *.
  replace (remaining t - serviced >? 0) with true in Hs
    by (symmetry; rewrite Z.gtb_ltb; apply Z.ltb_lt; lia).
  eexists _, _. split; [exact Hs|]. simpl. by rewrite lookup_insert_eq.
Qed.

Lemma reinsert_never_fails_witness :
  QueueRR_.enqueue (fst (QueueRR_.dequeue (mkQueueRR "c1" 1 [mkTask "c1-001" 3])))
                   (mkTask "c1-001" 2)
  = (mkQueueRR "c1" 1 [mkTask "c1-001" 2], true) /\
  exists s1 l,
    serve 1 "c1" (mkQueueRR "c1" 1 [mkTask "c1-001" 3]) demo_full = Some (s1, l) /\
    queues s1 !! "c1" = Some (mkQueueRR "c1" 1 [mkTask "c1-001" 2]).
Proof.
  destruct (reinsert_never_fails demo_full 1 "c1"
              (mkQueueRR "c1" 1 [mkTask "c1-001" 3])
              (mkTask "c1-001" 3) []
              (reachable_wf _ demo_full_reachable)
              ltac:(vm_compute; reflexivity) ltac:(vm_compute; reflexivity)
              ltac:(reflexivity) ltac:(reflexivity))
    as (_ & _ & H1 & H2).
  split; [exact H1 | exact H2].
Defined.

(** C5: a turn that finds the skip flag set clears it and does nothing else
    to the queues or the clock, whatever the queue holds; the run line is
    logged, the cursor moves on by one (cyclically) and the snapshot of the
    resulting scheduler follows. *)
Theorem turn_skip (s : Scheduler) (quantum : Z) (qid : string) (q : QueueRR) :
  wf s ->
  visits s qid q ->
  skip_flags s !! qid = Some true ->
  let n := Z.of_nat (length (queue_order s)) in
  let s' :=
    mkScheduler (time s) (queues s) (queue_order s) (id_counter s)
                (<[qid := false]> (skip_flags s))
                ((rr_index s + 1) mod n) (_menu s) in
  exists snap,
    display s' = Some snap /\
    run_turn quantum n s
    = Some (s', ("time=" +:+ str_int (time s) +:+ " event=run queue=" +:+ qid)
                :: snap).
Proof.
  intros Hwf Hv Hflag n s'.
  pose proof (serve_skip quantum qid q s Hflag) as Hs.
  destruct (run_turn_unfold quantum n s qid q _ _ Hwf Hv Hs) as (snap & H1 & H2).
  exists snap. split; done.
Qed.

Lemma demo_skip_wf : wf demo_skip.
Proof. apply mark_skip_wf, reachable_wf, demo_full_reachable. Qed.

Lemma turn_skip_witness :
  ((fun r => (time (fst r), queues (fst r) !! "c1",
              skip_flags (fst r) !! "c1", rr_index (fst r), snd r))
     <$> run_turn 1 1 demo_skip)
  = Some (0, Some (mkQueueRR "c1" 1 [mkTask "c1-001" 3]), Some false, 0,
          [ "time=0 event=run queue=c1";
            "display time=0 next=c1";
            "display menu=[americano:2,cappuccino:3,hot_chocolate:4,latte:3,macchiato:2,mocha:4,tea:1]";
            "display c1 [1/1] -> [c1-001:3]" ])
  /\ skip_flags demo_skip !! "c1" = Some true.
Proof.
  split; [|vm_compute; reflexivity].
  destruct (turn_skip demo_skip 1 "c1" (mkQueueRR "c1" 1 [mkTask "c1-001" 3])
              demo_skip_wf
              ltac:(split; vm_compute; reflexivity)
              ltac:(vm_compute; reflexivity))
    as (snap & Hsnap & Hrun).
  vm_compute in Hsnap. injection Hsnap as <-.
  etrans; [exact (f_equal _ Hrun)|]. vm_compute. reflexivity.
Defined.

(** C6: with at least one queue registered, [run] with [steps] below 1 or
    above the number of queues returns the single invalid_steps error line,
    runs no turn, and hands back the scheduler it was given. *)
Theorem run_invalid_steps (s : Scheduler) (quantum st : Z) :
  queue_order s <> [] ->
  st < 1 \/ st > Z.of_nat (length (queue_order s)) ->
  run quantum (Some st) s = Some (s, [log_error (time s)]) /\
  run_counting quantum (Some st) s = Some (s, [log_error (time s)], 0).
Proof.
  intros Hne Hst. unfold run, run_counting.
  replace (Z.of_nat (length (queue_order s)) =? 0) with false.
  2:{ symmetry. apply Z.eqb_neq. destruct (queue_order s); [done|simpl; lia]. }
  replace ((st <? 1) || (st >? Z.of_nat (length (queue_order s)))) with true.
  2:{ symmetry. apply orb_true_iff. rewrite Z.ltb_lt, Z.gtb_ltb, Z.ltb_lt. lia. }
  done.
Qed.

Lemma run_invalid_steps_witness :
  run 1 (Some 2) demo_full
  = Some (demo_full, ["time=0 event=error reason=invalid_steps"]) /\
  run 1 (Some 0) demo_full
  = Some (demo_full, ["time=0 event=error reason=invalid_steps"]).
Proof.
  split.
  - apply (run_invalid_steps demo_full 1 2); [discriminate | right; vm_compute; reflexivity].
  - apply (run_invalid_steps demo_full 1 0); [discriminate | left; lia].
Defined.

Lemma registered_listed (s : Scheduler) :
  wf s -> (queue_order s <> [] <-> exists qid, is_Some (queues s !! qid)).
Proof.
  intros Hwf. split.
  - destruct (queue_order s) as [|x l] eqn:E; [done|]. intros _. exists x.
    apply (wf_order s Hwf). rewrite E. by left.
  - intros [qid Hq] E. apply (wf_order s Hwf) in Hq. rewrite E in Hq.
    inversion Hq.
Qed.

(** ** Unbounded mode *)

Lemma all_empty_spec s :
  all_empty s = true <-> forall qid q, queues s !! qid = Some q -> data q = [].
Proof.
  unfold all_empty. rewrite forallb_forall. split.
  - intros H qid q Hq.
    specialize (H (qid, q)). simpl in H.
    assert (Hin : In (qid, q) (map_to_list (queues s))).
    { apply list_elem_of_In, elem_of_map_to_list. done. }
    apply H in Hin. apply Z.eqb_eq in Hin. unfold QueueRR_.len in Hin.
    destruct (data q); [done|simpl in Hin; lia].
  - intros H [qid q] Hin. simpl.
    apply list_elem_of_In, elem_of_map_to_list in Hin.
    apply Z.eqb_eq. unfold QueueRR_.len. by rewrite (H qid q Hin).
Qed.

Lemma no_skips_spec s :
  no_skips s = true <-> forall qid b, skip_flags s !! qid = Some b -> b = false.
Proof.
  unfold no_skips. rewrite negb_true_iff. split.
  - intros H qid b Hb. destruct b; [|done]. exfalso.
    assert (existsb (fun kv : string * bool => snd kv)
                    (map_to_list (skip_flags s)) = true); [|congruence].
    apply existsb_exists. exists (qid, true). split; [|done].
    apply list_elem_of_In, elem_of_map_to_list. done.
  - intros H. destruct (existsb _ _) eqn:E; [|done]. exfalso.
    apply existsb_exists in E as [[qid b] [Hin Hb]]. simpl in Hb. subst b.
    apply list_elem_of_In, elem_of_map_to_list in Hin.
    specialize (H qid true Hin). done.
Qed.

Lemma drained_spec s : drained s = true <-> idle s.
Proof.
  unfold drained, idle. rewrite andb_true_iff, all_empty_spec, no_skips_spec.
  reflexivity.
Qed.

(** C7: on a scheduler with at least one queue, the unbounded [run] returns
    after [k] turns with [1 <= k <= 100 n].  It did not stop at any earlier
    turn, because the scheduler after each of those was not idle; and it
    stopped before the ceiling only on reaching an idle scheduler. *)
Theorem run_unbounded (s : Scheduler) (quantum : Z) :
  wf s ->
  queue_order s <> [] ->
  0 < quantum ->
  let n := Z.of_nat (length (queue_order s)) in
  exists s' logs (k : nat),
    run_counting quantum None s = Some (s', logs, Z.of_nat k) /\
    run quantum None s = Some (s', logs) /\
    1 <= Z.of_nat k <= n * 100 /\
    after_turns k quantum n s = Some s' /\
    (forall j : nat, (1 <= j < k)%nat ->
       exists sj, after_turns j quantum n s = Some sj /\ ~ idle sj) /\
    (Z.of_nat k < n * 100 -> idle s').
Proof.
  intros Hwf Hne Hquantum n.
  assert (Hn : 1 <= n).
  { subst n. destruct (queue_order s); [done|simpl; lia]. }
  destruct (run_loop_spec quantum None n (Z.to_nat (n * 100)) s 0 [] Hwf Hne eq_refl)
    as (s' & l' & k & Hrun & _ & _ & Hk & Hpos & Hafter & _ & Hnone).
  destruct (Hnone eq_refl) as [Hmid Hend].
  exists s', l', k. unfold run, run_counting. fold n.
  replace (n =? 0) with false by (symmetry; apply Z.eqb_neq; lia).
  rewrite Hrun. simpl. split_and!; try done; try lia.
  - intros j Hj.
    destruct (after_turns_prefix quantum n k j s s' Hafter ltac:(lia)) as [sj Hsj].
    exists sj. split; [done|]. rewrite <- drained_spec.
    rewrite (Hmid j sj Hj Hsj). done.
  - intros Hlt. apply drained_spec, Hend. lia.
Qed.

Lemma run_unbounded_witness :
  exists s' logs (k : nat),
    run 1 None demo_full = Some (s', logs) /\
    1 <= Z.of_nat k <= 100 /\
    after_turns k 1 1 demo_full = Some s' /\
    (Z.of_nat k < 100 -> idle s').
Proof.
  destruct (run_unbounded demo_full 1
              (reachable_wf _ demo_full_reachable)
              ltac:(discriminate) ltac:(lia))
    as (s' & logs & k & _ & H1 & H2 & H3 & _ & H4).
  assert (Hlen : Z.of_nat (length (queue_order demo_full)) = 1)
    by (vm_compute; reflexivity).
  rewrite Hlen in *.
  exists s', logs, k. split_and!; try done; try lia.
Defined.

Example demo_run_drains :
  (fun r => (time (fst (fst r)), snd r)) <$> run_counting 1 None demo_full
  = Some (3, 3).
Proof. vm_compute. reflexivity. Qed.

(** ** Capacities never change *)

Lemma cap_of_insert_same s qid q q' x :
  queues s !! qid = Some q -> capacity q' = capacity q ->
  capacity <$> (<[qid := q']> (queues s)) !! x = cap_of s x.
Proof.
  intros Hq Hc. unfold cap_of. destruct (decide (qid = x)) as [->|Hne].
  - rewrite lookup_insert_eq, Hq. simpl. by rewrite Hc.
  - by rewrite lookup_insert_ne.
Qed.

Lemma create_queue_cap qid cap s x c :
  cap_of s x = Some c -> cap_of (fst (create_queue qid cap s)) x = Some c.
Proof.
  unfold create_queue, cap_of.
  destruct (queues s !! qid) as [q|] eqn:Hq; simpl; [done|].
  destruct (decide (qid = x)) as [->|Hne].
  - rewrite Hq. done.
  - by rewrite lookup_insert_ne.
Qed.

Lemma enqueue_cap qid item_name s o x :
  enqueue qid item_name s = Some o -> cap_of (out_state o) x = cap_of s x.
Proof.
  unfold enqueue.
  destruct (queues s !! qid) as [q|] eqn:Hq; [|by intros [= <-]].
  destruct (id_counter s !! qid) as [c|]; simpl; [|done].
  destruct (menu_get _ _) as [burst|]; [|by intros [= <-]].
  pose proof (QueueRR_enqueue_capacity q (mkTask (make_task_id qid (c + 1)) burst)) as Hc.
  destruct (QueueRR_.enqueue _ _) as [q' []]; intros [= <-]; [|done].
  simpl in *. unfold cap_of at 1. simpl. by eapply cap_of_insert_same.
Qed.

Lemma serve_cap quantum qid q s s1 l x :
  queues s !! qid = Some q ->
  serve quantum qid q s = Some (s1, l) -> cap_of s1 x = cap_of s x.
Proof.
  intros Hq. unfold serve.
  destruct (skip_flags s !! qid) as [[]|]; simpl; [by intros [= <- <-]| |done].
  destruct (QueueRR_.len q >? 0); [|by intros [= <- <-]].
  unfold QueueRR_.dequeue. destruct (data q) as [|t rest]; [done|].
  destruct (_ >? 0); intros [= <- <-]; unfold cap_of at 1; simpl.
  - rewrite insert_insert_eq. eapply cap_of_insert_same; [done|].
    by rewrite QueueRR_enqueue_capacity.
  - by eapply cap_of_insert_same.
Qed.

Lemma run_turn_cap quantum n s s' l x :
  run_turn quantum n s = Some (s', l) -> cap_of s' x = cap_of s x.
Proof.
  unfold run_turn.
  destruct (py_index _ _) as [qid|]; simpl; [|done].
  destruct (queues s !! qid) as [q|] eqn:Hq; simpl; [|done].
  destruct (serve quantum qid q s) as [[s1 l1]|] eqn:Hs; simpl; [|done].
  destruct (display _); simpl; [|done].
  intros [= <- <-]. unfold cap_of at 1. simpl. by eapply serve_cap.
Qed.

Lemma run_loop_cap quantum steps n x : forall todo s td logs r,
  run_loop todo quantum steps n td s logs = Some r ->
  cap_of (fst (fst r)) x = cap_of s x.
Proof.
  induction todo as [|todo IH]; intros s td logs r; simpl.
  - by intros [= <-].
  - destruct (n =? 0); [by intros [= <-]|].
    destruct (run_turn quantum n s) as [[s1 l1]|] eqn:Ht; simpl; [|done].
    pose proof (run_turn_cap _ _ _ _ _ x Ht) as Hc.
    destruct steps as [st|].
    + intros Hr. rewrite (IH _ _ _ _ Hr). done.
    + destruct (drained s1); [by intros [= <-]|].
      intros Hr. rewrite (IH _ _ _ _ Hr). done.
Qed.

Lemma exec_op_cap o s s' x c :
  exec_op o s = Some s' -> cap_of s x = Some c -> cap_of s' x = Some c.
Proof.
  destruct o as [qid cap|qid item|qid|quantum steps]; simpl.
  - intros [= <-]. apply create_queue_cap.
  - destruct (enqueue qid item s) as [o|] eqn:E; simpl; [|done].
    intros [= <-]. by rewrite (enqueue_cap _ _ _ _ x E).
  - intros [= <-]. unfold mark_skip. by destruct (skip_flags s !! qid).
  - unfold run, run_counting.
    destruct (_ =? 0); [by intros [= <-]|].
    destruct steps as [st|].
    + destruct (_ || _); [by intros [= <-]|].
      destruct (run_loop _ _ _ _ _ _ _) as [r|] eqn:E; simpl; [|done].
      intros [= <-]. by rewrite (run_loop_cap _ _ _ x _ _ _ _ _ E).
    + destruct (run_loop _ _ _ _ _ _ _) as [r|] eqn:E; simpl; [|done].
      intros [= <-]. by rewrite (run_loop_cap _ _ _ x _ _ _ _ _ E).
Qed.

Lemma exec_ops_cap os x c : forall s s',
  exec_ops os s = Some s' -> cap_of s x = Some c -> cap_of s' x = Some c.
Proof.
  induction os as [|o os IH]; intros s s'; simpl.
  - by intros [= <-].
  - destruct (exec_op o s) as [s1|] eqn:E; simpl; [|done].
    intros Hr Hc. eapply IH; [done|]. by eapply exec_op_cap.
Qed.

(** C9: [create_queue] takes any integer as capacity.  On a fresh id it
    registers an empty queue with that capacity and returns the create
    line.  When the capacity is zero or negative, then after any further
    session every [enqueue] of a known item on that queue is answered with
    the reject line with reason full, and the queue's counter still goes up
    by one. *)
Theorem create_queue_any_capacity (s : Scheduler) (qid : string) (cap : Z) :
  wf s ->
  queues s !! qid = None ->
  let s0 :=
    mkScheduler (time s) (<[qid := mkQueueRR qid cap []]> (queues s))
                (queue_order s ++ [qid]) (<[qid := 0]> (id_counter s))
                (<[qid := false]> (skip_flags s)) (rr_index s) (_menu s) in
  create_queue qid cap s
  = (s0, ["time=" +:+ str_int (time s) +:+ " event=create queue=" +:+ qid]) /\
  queues s0 !! qid = Some (mkQueueRR qid cap []) /\
  (cap <= 0 ->
   forall (os : list Op) (s2 : Scheduler) (item_name : string),
     exec_ops os s0 = Some s2 ->
     is_Some (menu_get (_menu s2) item_name) ->
     exists c o,
       id_counter s2 !! qid = Some c /\
       enqueue qid item_name s2 = Some o /\
       out_logs o
       = ["time=" +:+ str_int (time s2) +:+ " event=reject queue=" +:+ qid
          +:+ " task=" +:+ (qid +:+ "-" +:+ fmt_03d (c + 1))
          +:+ " reason=full"] /\
       out_printed o = ["Sorry, we're at capacity."] /\
       id_counter (out_state o) !! qid = Some (c + 1) /\
       queues (out_state o) = queues s2).
Proof.
  intros Hwf Hfresh s0.
  assert (Hcreate : create_queue qid cap s
                    = (s0, ["time=" +:+ str_int (time s)
                            +:+ " event=create queue=" +:+ qid])).
  { unfold create_queue. rewrite Hfresh. done. }
  split; [done|]. split; [subst s0; simpl; by rewrite lookup_insert_eq|].
  intros Hcap os s2 item_name Hos [burst Hm].
  assert (Hwf0 : wf s0).
  { pose proof (create_queue_wf qid cap s Hwf) as H. by rewrite Hcreate in H. }
  pose proof (exec_ops_wf os s0 s2 Hwf0 Hos) as Hwf2.
  assert (Hc0 : cap_of s0 qid = Some cap).
  { unfold cap_of. subst s0. simpl. by rewrite lookup_insert_eq. }
  pose proof (exec_ops_cap os qid cap s0 s2 Hos Hc0) as Hc2.
  unfold cap_of in Hc2.
  destruct (queues s2 !! qid) as [q|] eqn:Hq; simpl in Hc2; [|done].
  injection Hc2 as Hc2.
  destruct (proj1 (wf_counter s2 Hwf2 qid) (ltac:(eauto))) as [c Hc].
  exists c. rewrite (enqueue_registered qid item_name s2 q c Hq Hc), Hm.
  replace (QueueRR_.len q >=? capacity q) with true.
  2:{ symmetry. rewrite Z.geb_leb. apply Z.leb_le. unfold QueueRR_.len. lia. }
  eexists. split_and!; try done; try reflexivity.
  simpl. by rewrite lookup_insert_eq.
Qed.

Lemma create_queue_any_capacity_witness :
  snd (create_queue "c0" (-2) demo_full) = ["time=0 event=create queue=c0"] /\
  queues (fst (create_queue "c0" (-2) demo_full)) !! "c0"
  = Some (mkQueueRR "c0" (-2) []) /\
  ((fun o => (out_logs o, out_printed o, id_counter (out_state o) !! "c0"))
     <$> enqueue "c0" "tea" (fst (create_queue "c0" (-2) demo_full)))
  = Some (["time=0 event=reject queue=c0 task=c0-001 reason=full"],
          ["Sorry, we're at capacity."], Some 1) /\
  ((fun o => (out_logs o, out_printed o, id_counter (out_state o) !! "c0"))
     <$> (s2 ← exec_ops [OEnqueue "c0" "latte"; ORun 1 None]
                        (fst (create_queue "c0" (-2) demo_full));
          enqueue "c0" "tea" s2))
  = Some (["time=3 event=reject queue=c0 task=c0-002 reason=full"],
          ["Sorry, we're at capacity."], Some 2).
Proof.
  destruct (create_queue_any_capacity demo_full "c0" (-2)
              (reachable_wf _ demo_full_reachable)
              ltac:(vm_compute; reflexivity))
    as (H1 & H2 & H3).
  rewrite H1. simpl fst. simpl snd. split; [vm_compute; reflexivity|].
  split; [exact H2|]. split.
  - destruct (H3 ltac:(lia) [] _ "tea" eq_refl ltac:(vm_compute; eauto))
      as (c & o & Hc & He & Hl & Hp & Hc' & _).
    assert (c = 0) as -> by (vm_compute in Hc; congruence).
    rewrite He. simpl. rewrite Hl, Hp, Hc'. vm_compute. reflexivity.
  - destruct (exec_ops [OEnqueue "c0" "latte"; ORun 1 None] _) as [s2|] eqn:E.
    2:{ vm_compute in E. discriminate. }
    destruct (H3 ltac:(lia) _ s2 "tea" E) as (c & o & Hc & He & Hl & Hp & Hc' & _).
    { assert (Hm : _menu s2 = REQUIRED_MENU)
        by (vm_compute in E; injection E as <-; reflexivity).
      rewrite Hm. vm_compute. eauto. }
    assert (Ht : time s2 = 3)
      by (vm_compute in E; injection E as <-; reflexivity).
    assert (c = 1) as ->.
    { assert (Hc2 : id_counter s2 !! "c0" = Some 1)
        by (vm_compute in E; injection E as <-; vm_compute; reflexivity).
      congruence. }
    simpl. rewrite He. simpl. rewrite Hl, Hp, Hc', Ht. vm_compute. reflexivity.
Defined.

(** ** mark_skip *)

Lemma mark_skip_registered qid s :
  is_Some (skip_flags s !! qid) ->
  mark_skip qid s
  = (set_skip_flags (<[qid := true]> (skip_flags s)) s, [log_skip (time s) qid]).
Proof. intros [b Hb]. unfold mark_skip. by rewrite Hb. Qed.



(** * Further properties of the scheduler *)

(** ** Registry *)


(** X2: [mark_skip] on an id that was never registered returns the
    scheduler as it is, with no log line. *)
Theorem mark_skip_unregistered (s : Scheduler) (qid : string) :
  wf s ->
  queues s !! qid = None ->
  mark_skip qid s = (s, []).
Proof.
  intros Hwf Hq. unfold mark_skip.
  destruct (skip_flags s !! qid) as [b|] eqn:Hb; [|done].
  exfalso. assert (is_Some (queues s !! qid)) as [? ?].
  { apply (wf_skip s Hwf). eauto. }
  congruence.
Qed.

Lemma mark_skip_unregistered_witness :
  mark_skip "c9" demo_full = (demo_full, []).
Proof.
  apply (mark_skip_unregistered demo_full "c9"
           (reachable_wf _ demo_full_reachable)).
  vm_compute. reflexivity.
Defined.

(** ** QueueRR *)

(** X3: a queue below its capacity accepts the task, and the next
    [dequeue] hands out the oldest task: the task itself when the queue was
    empty (leaving it empty again), otherwise the previous head, with the
    new task kept at the tail.  [peek] shows that same task. *)
Theorem queue_fifo (q : QueueRR) (t : Task) :
  QueueRR_.len q < capacity q ->
  let q1 := fst (QueueRR_.enqueue q t) in
  snd (QueueRR_.enqueue q t) = true /\
  QueueRR_.len q1 = QueueRR_.len q + 1 /\
  QueueRR_.peek q1 = snd (QueueRR_.dequeue q1) /\
  QueueRR_.dequeue q1
  = match data q with
    | [] => (mkQueueRR (queue_id q) (capacity q) [], Some t)
    | h :: rest => (mkQueueRR (queue_id q) (capacity q) (rest ++ [t]), Some h)
    end.
Proof.
  intros Hlt q1. subst q1. unfold QueueRR_.enqueue.
  replace (QueueRR_.len q >=? capacity q) with false
    by (symmetry; rewrite Z.geb_leb; apply Z.leb_gt; lia).
  unfold QueueRR_.dequeue, QueueRR_.peek, QueueRR_.len. simpl.
  rewrite length_app. simpl.
  destruct (data q) as [|h rest]; simpl; split_and!; try done; lia.
Qed.

Lemma queue_fifo_witness :
  QueueRR_.dequeue (fst (QueueRR_.enqueue
                           (mkQueueRR "c1" 2 [mkTask "c1-001" 3])
                           (mkTask "c1-002" 1)))
  = (mkQueueRR "c1" 2 [mkTask "c1-002" 1], Some (mkTask "c1-001" 3)).
Proof.
  apply (queue_fifo (mkQueueRR "c1" 2 [mkTask "c1-001" 3]) (mkTask "c1-002" 1)).
  vm_compute. reflexivity.
Defined.

(** ** Turns *)

(** X4: a turn that finds the skip flag clear and the queue empty changes
    nothing but the cursor; its log is the run line followed by the
    snapshot. *)
Theorem turn_idle (s : Scheduler) (quantum : Z) (qid : string) (q : QueueRR) :
  wf s ->
  visits s qid q ->
  skip_flags s !! qid = Some false ->
  data q = [] ->
  let n := Z.of_nat (length (queue_order s)) in
  let s' := set_rr_index ((rr_index s + 1) mod n) s in
  exists snap,
    display s' = Some snap /\
    run_turn quantum n s = Some (s', log_run (time s) qid :: snap).
Proof.
  intros Hwf Hv Hflag Hd n s'.
  pose proof (serve_idle quantum qid q s Hflag Hd) as Hs.
  destruct (run_turn_unfold quantum n s qid q _ _ Hwf Hv Hs) as (snap & H1 & H2).
  exists snap. split; done.
Qed.

Lemma turn_idle_witness :
  run_turn 1 1 demo1
  = Some (demo1,
          [ "time=0 event=run queue=c1";
            "display time=0 next=c1";
            "display menu=[americano:2,cappuccino:3,hot_chocolate:4,latte:3,macchiato:2,mocha:4,tea:1]";
            "display c1 [0/2] -> []" ]).
Proof.
  destruct (turn_idle demo1 1 "c1" (QueueRR_.init "c1" 2) demo1_wf
              ltac:(split; vm_compute; reflexivity)
              ltac:(vm_compute; reflexivity) ltac:(reflexivity))
    as (snap & Hsnap & H).
  vm_compute in Hsnap. injection Hsnap as <-.
  etrans; [exact H|]. vm_compute. reflexivity.
Defined.

(** X5: on a well-formed scheduler whose cursor is at a queue with its skip
    flag clear, [mark_skip] on that queue followed by the queue's turn costs
    the queue its turn and nothing else: the scheduler after the turn is
    the one before [mark_skip] with the cursor moved on, even when a task
    was waiting. *)
Theorem mark_skip_then_turn (s : Scheduler) (quantum : Z) (qid : string)
    (q : QueueRR) :
  wf s ->
  visits s qid q ->
  skip_flags s !! qid = Some false ->
  let n := Z.of_nat (length (queue_order s)) in
  exists snap,
    run_turn quantum n (fst (mark_skip qid s))
    = Some (set_rr_index ((rr_index s + 1) mod n) s,
            log_run (time s) qid :: snap).
Proof.
  intros Hwf Hv Hflag n.
  rewrite mark_skip_registered by eauto. simpl.
  set (s1 := set_skip_flags (<[qid := true]> (skip_flags s)) s).
  assert (Hwf1 : wf s1).
  { pose proof (mark_skip_wf qid s Hwf) as H.
    rewrite mark_skip_registered in H by eauto. exact H. }
  assert (Hv1 : visits s1 qid q) by exact Hv.
  assert (Hf1 : skip_flags s1 !! qid = Some true)
    by (subst s1; simpl; by rewrite lookup_insert_eq).
  pose proof (serve_skip quantum qid q s1 Hf1) as Hs.
  destruct (run_turn_unfold quantum n s1 qid q _ _ Hwf1 Hv1 Hs) as (snap & _ & H2).
  exists snap. rewrite H2. f_equal. f_equal.
  subst s1. unfold set_rr_index, set_skip_flags. simpl.
  rewrite insert_insert_eq, (insert_id _ _ _ Hflag). done.
Qed.

Lemma mark_skip_then_turn_witness :
  run_turn 1 1 (fst (mark_skip "c1" demo_full))
  = Some (demo_full,
          [ "time=0 event=run queue=c1";
            "display time=0 next=c1";
            "display menu=[americano:2,cappuccino:3,hot_chocolate:4,latte:3,macchiato:2,mocha:4,tea:1]";
            "display c1 [1/1] -> [c1-001:3]" ])
  /\ skip_flags demo_full !! "c1" = Some false.
Proof.
  split; [|vm_compute; reflexivity].
  destruct (mark_skip_then_turn demo_full 1 "c1"
              (mkQueueRR "c1" 1 [mkTask "c1-001" 3])
              (reachable_wf _ demo_full_reachable)
              ltac:(split; vm_compute; reflexivity)
              ltac:(vm_compute; reflexivity))
    as (snap & H).
  assert (Hsnap : snap = [ "display time=0 next=c1";
                           "display menu=[americano:2,cappuccino:3,hot_chocolate:4,latte:3,macchiato:2,mocha:4,tea:1]";
                           "display c1 [1/1] -> [c1-001:3]" ]).
  { pose proof H as H'. vm_compute in H'. by injection H' as <-. }
  subst snap. etrans; [exact H|]. vm_compute. reflexivity.
Defined.

(** X6: with no queue registered [next_queue] is [None] and the snapshot
    says none; otherwise it names a registered queue, and that queue is the
    one the next turn reports in its run line. *)
Theorem next_queue_is_visited (s : Scheduler) (quantum : Z) :
  wf s ->
  (queue_order s = [] -> next_queue s = None /\ next_or_none s = "none") /\
  (queue_order s <> [] ->
   exists qid q s' rest,
     next_queue s = Some qid /\ queues s !! qid = Some q /\
     run_turn quantum (Z.of_nat (length (queue_order s))) s
     = Some (s', log_run (time s) qid :: rest)).
Proof.
  intros Hwf. split.
  - intros E. unfold next_or_none, next_queue. by rewrite E.
  - intros Hne. destruct (wf_visits s Hwf Hne) as (qid & q & Hv).
    destruct (serve_total quantum qid q s) as [[s1 l] Hs].
    { apply (wf_skip s Hwf). destruct Hv. eauto. }
    destruct (run_turn_unfold quantum (Z.of_nat (length (queue_order s)))
                s qid q _ _ Hwf Hv Hs) as (snap & _ & H2).
    exists qid, q. eexists _, (l ++ snap). split_and!; [|by destruct Hv|exact H2].
    unfold next_queue. pose proof (wf_index s Hwf) as Hi.
    destruct (queue_order s) as [|x l0] eqn:E; [done|]. rewrite <- E in *.
    rewrite Z.mod_small; [by destruct Hv|].
    rewrite E in *. simpl length in *. lia.
Qed.

Lemma next_queue_is_visited_witness :
  next_queue demo_full = Some "c1" /\
  ((fun r => hd_error (snd r)) <$> run_turn 1 1 demo_full)
  = Some (Some "time=0 event=run queue=c1").
Proof.
  destruct (proj2 (next_queue_is_visited demo_full 1
                     (reachable_wf _ demo_full_reachable))
              ltac:(discriminate))
    as (qid & q & s' & rest & H1 & _ & H2).
  assert (qid = "c1") as -> by (vm_compute in H1; congruence).
  split; [exact H1|].
  etrans; [exact (f_equal _ H2)|]. vm_compute. reflexivity.
Defined.

(** ** What holds along a run *)

(** A property kept by every turn is kept by the loop, by [run], by any
    number of turns, and a property kept by every operation is kept by a
    session. *)
Lemma run_loop_invariant (I : Scheduler -> Prop) quantum steps n :
  (forall s s' l, I s -> run_turn quantum n s = Some (s', l) -> I s') ->
  forall todo s td logs r, I s ->
    run_loop todo quantum steps n td s logs = Some r -> I (fst (fst r)).
Proof.
  intros Hstep. induction todo as [|todo IH]; intros s td logs r HI; simpl.
  - by intros [= <-].
  - destruct (n =? 0); [by intros [= <-]|].
    destruct (run_turn quantum n s) as [[s1 l1]|] eqn:Ht; simpl; [|done].
    pose proof (Hstep _ _ _ HI Ht) as HI1.
    destruct steps as [st|]; [by apply IH|].
    destruct (drained s1); [by intros [= <-]|by apply IH].
Qed.

Lemma run_counting_invariant (I : Scheduler -> Prop) quantum steps s r :
  (forall s1 s2 l, I s1 ->
     run_turn quantum (Z.of_nat (length (queue_order s))) s1 = Some (s2, l) ->
     I s2) ->
  I s -> run_counting quantum steps s = Some r -> I (fst (fst r)).
Proof.
  intros Hstep HI. unfold run_counting.
  destruct (_ =? 0); [by intros [= <-]|].
  destruct steps as [st|].
  - destruct (_ || _); [by intros [= <-]|]. by eapply run_loop_invariant.
  - by eapply run_loop_invariant.
Qed.

Lemma run_invariant (I : Scheduler -> Prop) quantum steps s s' l :
  (forall s1 s2 l, I s1 ->
     run_turn quantum (Z.of_nat (length (queue_order s))) s1 = Some (s2, l) ->
     I s2) ->
  I s -> run quantum steps s = Some (s', l) -> I s'.
Proof.
  intros Hstep HI. unfold run.
  destruct (run_counting quantum steps s) as [[[s1 l1] k]|] eqn:E; simpl; [|done].
  intros [= <- <-].
  apply (run_counting_invariant I quantum steps s _ Hstep HI E).
Qed.

Lemma after_turns_invariant (I : Scheduler -> Prop) quantum n :
  (forall s s' l, I s -> run_turn quantum n s = Some (s', l) -> I s') ->
  forall k s s', I s -> after_turns k quantum n s = Some s' -> I s'.
Proof.
  intros Hstep. induction k as [|k IH]; intros s s' HI; simpl.
  - by intros [= <-].
  - destruct (run_turn quantum n s) as [[s1 l1]|] eqn:Ht; simpl; [|done].
    apply IH. by eapply Hstep.
Qed.

Lemma exec_ops_invariant (I : Scheduler -> Prop) :
  (forall o s s', I s -> exec_op o s = Some s' -> I s') ->
  forall os s s', I s -> exec_ops os s = Some s' -> I s'.
Proof.
  intros Hstep. induction os as [|o os IH]; intros s s' HI; simpl.
  - by intros [= <-].
  - destruct (exec_op o s) as [s1|] eqn:E; simpl; [|done].
    apply IH. by eapply Hstep.
Qed.

Lemma serve_frame quantum qid q s s1 l :
  serve quantum qid q s = Some (s1, l) ->
  id_counter s1 = id_counter s /\ queue_order s1 = queue_order s /\
  _menu s1 = _menu s /\ rr_index s1 = rr_index s /\ (length l <= 1)%nat.
Proof.
  unfold serve.
  destruct (skip_flags s !! qid) as [[]|]; simpl;
    [intros [= <- <-]; simpl; split_and!; (done || lia)| |done].
  destruct (QueueRR_.len q >? 0);
    [|intros [= <- <-]; simpl; split_and!; (done || lia)].
  destruct (QueueRR_.dequeue q) as [q1 [t|]]; [|done].
  destruct (_ >? 0); intros [= <- <-]; simpl; split_and!; (done || lia).
Qed.

Lemma display_length s snap :
  display s = Some snap -> length snap = S (S (length (queue_order s))).
Proof.
  unfold display.
  destruct (mapM (display_queue s) (queue_order s)) as [ql|] eqn:E; simpl; [|done].
  intros [= <-]. simpl. by rewrite (length_mapM _ _ _ E).
Qed.

Lemma run_turn_frame quantum n s s' l :
  run_turn quantum n s = Some (s', l) ->
  id_counter s' = id_counter s /\ queue_order s' = queue_order s /\
  _menu s' = _menu s /\ rr_index s' = (rr_index s + 1) mod n /\
  (length (queue_order s) + 3 <= length l <= length (queue_order s) + 4)%nat.
Proof.
  unfold run_turn.
  destruct (py_index _ _) as [qid|]; simpl; [|done].
  destruct (queues s !! qid) as [q|] eqn:Hq; simpl; [|done].
  destruct (serve quantum qid q s) as [[s1 l1]|] eqn:Hs; simpl; [|done].
  destruct (serve_frame _ _ _ _ _ _ Hs) as (H1 & H2 & H3 & H4 & H5).
  destruct (display _) as [snap|] eqn:Hd; simpl; [|done].
  apply display_length in Hd. simpl in Hd.
  intros [= <- <-]. simpl. rewrite length_app, Hd, H2, H4.
  split_and!; (done || lia).
Qed.

(** X7: [run] only dispatches.  Whatever the quantum and the step bound,
    it leaves the task-id counters, the creation order, the menu and every
    queue's capacity as they were. *)
Theorem run_frame (s s' : Scheduler) (quantum : Z) (steps : option Z)
    (l : list string) :
  run quantum steps s = Some (s', l) ->
  id_counter s' = id_counter s /\
  queue_order s' = queue_order s /\
  menu s' = menu s /\
  forall qid, cap_of s' qid = cap_of s qid.
Proof.
  intros Hrun.
  apply (run_invariant
           (fun s1 => id_counter s1 = id_counter s /\
                      queue_order s1 = queue_order s /\
                      menu s1 = menu s /\
                      forall qid, cap_of s1 qid = cap_of s qid)
           quantum steps s s' l); [|done|done].
  intros s1 s2 l1 (H1 & H2 & H3 & H4) Ht.
  destruct (run_turn_frame _ _ _ _ _ Ht) as (F1 & F2 & F3 & _).
  unfold menu in *. split_and!; try congruence.
  intros qid. rewrite (run_turn_cap _ _ _ _ _ qid Ht). apply H4.
Qed.

Lemma run_frame_witness :
  exists s' l,
    run 1 (Some 1) demo_full = Some (s', l) /\
    id_counter s' = id_counter demo_full /\
    queue_order s' = queue_order demo_full.
Proof.
  destruct (run 1 (Some 1) demo_full) as [[s' l]|] eqn:E.
  - exists s', l. split; [reflexivity|].
    destruct (run_frame demo_full s' 1 (Some 1) l E) as (H1 & H2 & _).
    split; [exact H1 | exact H2].
  - vm_compute in E. discriminate.
Defined.

Lemma after_turns_cursor quantum n : forall k s s',
  0 < n -> 0 <= rr_index s < n ->
  after_turns k quantum n s = Some s' ->
  rr_index s' = (rr_index s + Z.of_nat k) mod n.
Proof.
  induction k as [|k IH]; intros s s' Hn Hrr; simpl.
  - intros [= <-]. rewrite Z.add_0_r, Z.mod_small; lia.
  - destruct (run_turn quantum n s) as [[s1 l1]|] eqn:Ht; simpl; [|done].
    destruct (run_turn_frame _ _ _ _ _ Ht) as (_ & _ & _ & Hr & _).
    intros Hk. rewrite (IH s1 s' Hn) by (rewrite ?Hr; (by apply Z.mod_pos_bound) || done).
    rewrite Hr, Zplus_mod_idemp_l. f_equal. lia.
Qed.

Lemma run_loop_logs quantum steps n (N : nat) : forall todo s td logs s' logs' td',
  length (queue_order s) = N ->
  run_loop todo quantum steps n td s logs = Some (s', logs', td') ->
  exists extra,
    logs' = logs ++ extra /\
    (td' - td) * (Z.of_nat N + 3) <= Z.of_nat (length extra)
      <= (td' - td) * (Z.of_nat N + 4).
Proof.
  induction todo as [|todo IH]; intros s td logs s' logs' td' HN; simpl.
  - intros [= <- <- <-]. exists []. rewrite app_nil_r. split; [done|]. simpl. lia.
  - destruct (n =? 0).
    { intros [= <- <- <-]. exists []. rewrite app_nil_r. split; [done|]. simpl. lia. }
    destruct (run_turn quantum n s) as [[s1 l1]|] eqn:Ht; simpl; [|done].
    destruct (run_turn_frame _ _ _ _ _ Ht) as (_ & Ho & _ & _ & Hl).
    rewrite HN in Hl.
    assert (Hstop : (s1, logs ++ l1, td + 1) = (s', logs', td') ->
              exists extra, logs' = logs ++ extra /\
                (td' - td) * (Z.of_nat N + 3) <= Z.of_nat (length extra)
                  <= (td' - td) * (Z.of_nat N + 4)).
    { intros [= <- <- <-]. exists l1. split; [done|]. lia. }
    assert (Hgo : run_loop todo quantum steps n (td + 1) s1 (logs ++ l1)
                  = Some (s', logs', td') ->
              exists extra, logs' = logs ++ extra /\
                (td' - td) * (Z.of_nat N + 3) <= Z.of_nat (length extra)
                  <= (td' - td) * (Z.of_nat N + 4)).
    { intros Hr. destruct (IH _ _ _ _ _ _ ltac:(by rewrite Ho) Hr) as (ex & He & Hb).
      exists (l1 ++ ex). split; [by rewrite app_assoc|].
      rewrite length_app. lia. }
    destruct steps as [st|]; [exact Hgo|].
    destruct (drained s1); [|exact Hgo].
    intros [= <- <- <-]. by apply Hstop.
Qed.

(** X8: with [1 <= steps <= n], [run] executes exactly [steps] turns.  The
    cursor ends [steps] places further round the cycle, so a run of [n]
    steps brings it back to where it was, and the returned log has between
    [steps * (n + 3)] and [steps * (n + 4)] lines: per turn a run line, at
    most one work or finish line, and a snapshot of [n + 2] lines. *)
Theorem run_bounded (s : Scheduler) (quantum st : Z) :
  wf s ->
  let n := Z.of_nat (length (queue_order s)) in
  1 <= st <= n ->
  exists s' logs,
    run_counting quantum (Some st) s = Some (s', logs, st) /\
    after_turns (Z.to_nat st) quantum n s = Some s' /\
    rr_index s' = (rr_index s + st) mod n /\
    (st = n -> rr_index s' = rr_index s) /\
    st * (n + 3) <= Z.of_nat (length logs) <= st * (n + 4).
Proof.
  intros Hwf n Hst.
  assert (Hne : queue_order s <> []).
  { intros E. subst n. rewrite E in Hst. simpl in Hst. lia. }
  destruct (run_loop_spec quantum (Some st) n (Z.to_nat st) s 0 [] Hwf Hne eq_refl)
    as (s' & l' & k & Hrun & _ & _ & _ & _ & Hafter & Hsome & _).
  rewrite (Hsome ltac:(eauto)) in *. clear Hsome k.
  simpl in Hrun. rewrite Z.add_0_l, Z2Nat.id in Hrun by lia.
  pose proof (wf_index s Hwf) as Hi. fold n in Hi.
  assert (Hrr : rr_index s' = (rr_index s + st) mod n).
  { rewrite (after_turns_cursor quantum n _ s s' ltac:(lia) ltac:(lia) Hafter).
    by rewrite Z2Nat.id by lia. }
  exists s', l'. unfold run_counting. fold n.
  replace (n =? 0) with false by (symmetry; apply Z.eqb_neq; lia).
  replace ((st <? 1) || (st >? n)) with false.
  2:{ symmetry. apply orb_false_iff. rewrite Z.ltb_ge, Z.gtb_ltb, Z.ltb_ge. lia. }
  split; [done|]. split; [done|]. split; [done|]. split.
  - intros ->. rewrite Hrr. replace (rr_index s + n) with (rr_index s + 1 * n) by lia.
    rewrite Z_mod_plus_full, Z.mod_small; lia.
  - destruct (run_loop_logs quantum (Some st) n _ _ _ _ _ _ _ _ eq_refl Hrun)
      as (extra & He & Hb).
    simpl in He. subst l'. fold n in Hb. lia.
Qed.

Lemma run_bounded_witness :
  exists s' logs,
    run_counting 1 (Some 1) demo_full = Some (s', logs, 1) /\
    rr_index s' = rr_index demo_full /\
    4 <= Z.of_nat (length logs) <= 5.
Proof.
  destruct (run_bounded demo_full 1 1 (reachable_wf _ demo_full_reachable)
              ltac:(vm_compute; split; discriminate))
    as (s' & logs & H1 & _ & _ & H2 & H3).
  exists s', logs. split; [exact H1|]. split; [apply H2; reflexivity|].
  exact H3.
Defined.

(** [run_turn], read backwards: the queue it visited and what [serve] did. *)
Lemma run_turn_cases quantum n s s' l :
  run_turn quantum n s = Some (s', l) ->
  exists qid q s1 l1,
    py_index (queue_order s) (rr_index s) = Some qid /\
    queues s !! qid = Some q /\
    serve quantum qid q s = Some (s1, l1) /\
    s' = set_rr_index ((rr_index s1 + 1) mod n) s1.
Proof.
  unfold run_turn.
  destruct (py_index _ _) as [qid|]; simpl; [|done].
  destruct (queues s !! qid) as [q|] eqn:Hq; simpl; [|done].
  destruct (serve quantum qid q s) as [[s1 l1]|] eqn:Hs; simpl; [|done].
  destruct (display _) as [snap|]; simpl; [|done].
  intros [= <- <-]. exists qid, q, s1, l1. done.
Qed.

(** The three things [serve] can have done. *)
Lemma serve_cases quantum qid q s s1 l :
  serve quantum qid q s = Some (s1, l) ->
  (skip_flags s !! qid = Some true /\
   s1 = set_skip_flags (<[qid := false]> (skip_flags s)) s)
  \/ (skip_flags s !! qid = Some false /\ data q = [] /\ s1 = s)
  \/ (exists t rest q',
        skip_flags s !! qid = Some false /\ data q = t :: rest /\
        let w := Z.min (remaining t) quantum in
        let t' := mkTask (task_id t) (remaining t - w) in
        let q1 := mkQueueRR (queue_id q) (capacity q) rest in
        ((0 < remaining t - w /\ q' = fst (QueueRR_.enqueue q1 t'))
         \/ (remaining t - w <= 0 /\ q' = q1)) /\
        s1 = mkScheduler (time s + w) (<[qid := q']> (queues s))
                         (queue_order s) (id_counter s) (skip_flags s)
                         (rr_index s) (_menu s)).
Proof.
  destruct (skip_flags s !! qid) as [[]|] eqn:Hf.
  - rewrite serve_skip by done. intros [= <- <-]. by left.
  - destruct (data q) as [|t rest] eqn:Hd.
    + rewrite serve_idle by done. intros [= <- <-]. right; left. done.
    + rewrite (serve_work _ _ _ _ t rest) by done. simpl.
      destruct (_ >? 0) eqn:Hpos; intros [= <- <-]; right; right.
      * eexists t, rest, _. split_and!; try done.
        { left. split; [|done]. rewrite Z.gtb_ltb in Hpos. by apply Z.ltb_lt. }
        unfold set_queues, set_time. simpl. by rewrite insert_insert_eq.
      * eexists t, rest, _. split_and!; try done.
        right. split; [|done]. rewrite Z.gtb_ltb in Hpos. by apply Z.ltb_ge.
  - unfold serve. rewrite Hf. done.
Qed.

Lemma run_turn_wf quantum s s' l :
  wf s ->
  run_turn quantum (Z.of_nat (length (queue_order s))) s = Some (s', l) ->
  wf s' /\ queue_order s' = queue_order s.
Proof.
  intros Hwf Ht.
  assert (Hne : queue_order s <> []).
  { intros E. unfold run_turn, py_index in Ht. rewrite E in Ht. simpl in Ht.
    repeat (destruct (_ && _); simpl in Ht; try done). }
  destruct (run_turn_total quantum s Hwf Hne) as (s2 & l2 & Ht2 & Hwf2 & Ho2).
  rewrite Ht in Ht2. injection Ht2 as <- <-. done.
Qed.

Lemma idle_not_busy s : idle s -> ~ busy s.
Proof. intros [H _] (qid & q & Hq & Hne). by apply Hne, (H qid q). Qed.

(** X9: on a well-formed scheduler with at least one queue registered, the
    unbounded [run] on a scheduler that is already idle is not a no-op: it
    executes exactly one turn, which logs the run line and the snapshot and
    moves the cursor, and then stops. *)
Theorem idle_run_takes_one_turn (s : Scheduler) (quantum : Z) :
  wf s ->
  queue_order s <> [] ->
  idle s ->
  let n := Z.of_nat (length (queue_order s)) in
  exists qid q snap,
    visits s qid q /\
    run_counting quantum None s
    = Some (set_rr_index ((rr_index s + 1) mod n) s,
            log_run (time s) qid :: snap, 1).
Proof.
  intros Hwf Hne Hidle n.
  destruct (wf_visits s Hwf Hne) as (qid & q & Hv).
  pose proof Hv as [_ Hq].
  destruct (proj1 (wf_skip s Hwf qid) (ltac:(eauto))) as [b Hb].
  assert (b = false) as -> by (by apply (proj2 Hidle qid)).
  pose proof (serve_idle quantum qid q s Hb (proj1 Hidle qid q Hq)) as Hs.
  destruct (run_turn_unfold quantum n s qid q _ _ Hwf Hv Hs) as (snap & _ & Ht).
  exists qid, q, snap. split; [done|].
  assert (Hn : 1 <= n) by (subst n; destruct (queue_order s); [done|simpl; lia]).
  unfold run_counting. fold n.
  replace (n =? 0) with false by (symmetry; apply Z.eqb_neq; lia).
  destruct (Z.to_nat (n * 100)) as [|todo] eqn:E; [lia|].
  simpl. replace (n =? 0) with false by (symmetry; apply Z.eqb_neq; lia).
  rewrite Ht. simpl.
  replace (drained _) with true; [done|].
  symmetry. apply drained_spec. exact Hidle.
Qed.

Lemma idle_run_takes_one_turn_witness :
  run_counting 7 None demo1
  = Some (demo1,
          [ "time=0 event=run queue=c1";
            "display time=0 next=c1";
            "display menu=[americano:2,cappuccino:3,hot_chocolate:4,latte:3,macchiato:2,mocha:4,tea:1]";
            "display c1 [0/2] -> []" ], 1).
Proof.
  destruct (idle_run_takes_one_turn demo1 7 demo1_wf ltac:(discriminate)
              ltac:(apply drained_spec; vm_compute; reflexivity))
    as (qid & q & snap & [Hv _] & Hrun).
  assert (qid = "c1") as -> by (vm_compute in Hv; congruence).
  assert (Hsnap : snap = [ "display time=0 next=c1";
                           "display menu=[americano:2,cappuccino:3,hot_chocolate:4,latte:3,macchiato:2,mocha:4,tea:1]";
                           "display c1 [0/2] -> []" ]).
  { pose proof Hrun as H'. vm_compute in H'. by injection H' as <-. }
  subst snap. etrans; [exact Hrun|]. vm_compute. reflexivity.
Defined.

(** ** Tasks keep service time; the menu is fixed *)

Lemma REQUIRED_MENU_positive : menu_positive REQUIRED_MENU.
Proof.
  intros name cost H. unfold REQUIRED_MENU in H. cbn [menu_get] in H.
  repeat (destruct (String.eqb _ name); [injection H as <-; lia|]).
  discriminate.
Qed.

Lemma tasks_positive_insert s qid q' :
  tasks_positive s ->
  (forall t, t ∈ data q' -> 0 < remaining t) ->
  forall x qx t, <[qid := q']> (queues s) !! x = Some qx -> t ∈ data qx ->
                 0 < remaining t.
Proof.
  intros Hp Hq' x qx t Hx Ht.
  apply lookup_insert_Some in Hx as [[_ <-]|[_ Hx]]; [by apply Hq'|].
  by eapply Hp.
Qed.

Lemma serve_positive quantum qid q s s1 l :
  tasks_positive s -> queues s !! qid = Some q ->
  serve quantum qid q s = Some (s1, l) -> tasks_positive s1.
Proof.
  intros Hp Hq Hs.
  destruct (serve_cases _ _ _ _ _ _ Hs)
    as [[_ ->]|[(_ & _ & ->)|(t & rest & q' & _ & Hd & Hq' & ->)]];
    [exact Hp|exact Hp|].
  unfold tasks_positive. simpl. apply tasks_positive_insert; [done|].
  assert (Hrest : forall t0, t0 ∈ rest -> 0 < remaining t0).
  { intros t0 Hin. apply (Hp qid q t0 Hq). rewrite Hd. by right. }
  destruct Hq' as [[Hpos ->]|[_ ->]]; [|exact Hrest].
  unfold QueueRR_.enqueue. destruct (_ >=? _); simpl; [exact Hrest|].
  intros t0 Hin. apply elem_of_app in Hin as [Hin|Hin]; [by apply Hrest|].
  apply list_elem_of_singleton in Hin as ->. done.
Qed.

Lemma run_turn_positive quantum n s s' l :
  tasks_positive s -> run_turn quantum n s = Some (s', l) -> tasks_positive s'.
Proof.
  intros Hp Ht.
  destruct (run_turn_cases _ _ _ _ _ Ht) as (qid & q & s1 & l1 & _ & Hq & Hs & ->).
  exact (serve_positive _ _ _ _ _ _ Hp Hq Hs).
Qed.

Lemma enqueue_menu qid item_name s o :
  enqueue qid item_name s = Some o ->
  _menu (out_state o) = _menu s /\ queue_order (out_state o) = queue_order s /\
  time (out_state o) = time s.
Proof.
  unfold enqueue.
  destruct (queues s !! qid) as [q|]; [|by intros [= <-]].
  destruct (id_counter s !! qid) as [c|]; simpl; [|done].
  destruct (menu_get _ _) as [burst|]; [|by intros [= <-]].
  destruct (QueueRR_.enqueue _ _) as [q' []]; by intros [= <-].
Qed.

Lemma enqueue_positive qid item_name s o :
  menu_positive (_menu s) -> tasks_positive s ->
  enqueue qid item_name s = Some o -> tasks_positive (out_state o).
Proof.
  intros Hm Hp. unfold enqueue.
  destruct (queues s !! qid) as [q|] eqn:Hq; [|by intros [= <-]].
  destruct (id_counter s !! qid) as [c|]; simpl; [|done].
  destruct (menu_get _ _) as [burst|] eqn:Hb; [|by intros [= <-]].
  unfold QueueRR_.enqueue. destruct (_ >=? _); intros [= <-]; [done|].
  unfold tasks_positive. simpl. apply tasks_positive_insert; [done|]. simpl.
  intros t Hin. apply elem_of_app in Hin as [Hin|Hin]; [by apply (Hp qid q)|].
  apply list_elem_of_singleton in Hin as ->. simpl. by eapply Hm.
Qed.

Lemma run_counting_frame quantum steps s r :
  run_counting quantum steps s = Some r ->
  id_counter (fst (fst r)) = id_counter s /\
  queue_order (fst (fst r)) = queue_order s /\
  _menu (fst (fst r)) = _menu s.
Proof.
  apply (run_counting_invariant
           (fun s1 => id_counter s1 = id_counter s /\
                      queue_order s1 = queue_order s /\ _menu s1 = _menu s));
    [|done].
  intros s1 s2 l1 (H1 & H2 & H3) Ht.
  destruct (run_turn_frame _ _ _ _ _ Ht) as (F1 & F2 & F3 & _).
  split_and!; congruence.
Qed.

Lemma exec_op_sound o s s' :
  tasks_positive s /\ _menu s = REQUIRED_MENU ->
  exec_op o s = Some s' ->
  tasks_positive s' /\ _menu s' = REQUIRED_MENU.
Proof.
  intros [Hp Hm]. destruct o as [qid cap|qid item|qid|quantum steps]; simpl.
  - intros [= <-]. unfold create_queue.
    destruct (queues s !! qid) as [q|] eqn:Hq; simpl; [done|]. split; [|done].
    unfold tasks_positive. simpl. apply tasks_positive_insert; [done|].
    simpl. intros t Hin. inversion Hin.
  - destruct (enqueue qid item s) as [o|] eqn:E; simpl; [|done].
    intros [= <-]. split.
    + eapply enqueue_positive; [|done|done]. rewrite Hm.
      apply REQUIRED_MENU_positive.
    + destruct (enqueue_menu _ _ _ _ E) as (-> & _). done.
  - intros [= <-]. unfold mark_skip. by destruct (skip_flags s !! qid).
  - unfold run. destruct (run_counting quantum steps s) as [r|] eqn:E; simpl; [|done].
    intros [= <-]. split.
    + apply (run_counting_invariant tasks_positive quantum steps s r); [|done|done].
      intros s1 s2 l1. apply run_turn_positive.
    + destruct (run_counting_frame _ _ _ _ E) as (_ & _ & ->). done.
Qed.

Lemma reachable_sound s :
  reachable s -> tasks_positive s /\ _menu s = REQUIRED_MENU.
Proof.
  intros [os H].
  apply (exec_ops_invariant
           (fun s => tasks_positive s /\ _menu s = REQUIRED_MENU)
           exec_op_sound os init s); [|done].
  split; [|done]. intros qid q t Hq. simpl in Hq.
  rewrite lookup_empty in Hq. discriminate.
Qed.

(** X10: in every reachable scheduler each queued task has remaining
    service time above zero: a task enters with a positive menu cost and is
    put back after service only while time is left. *)
Theorem reachable_tasks_positive (s : Scheduler) (qid : string) (q : QueueRR)
    (t : Task) :
  reachable s ->
  queues s !! qid = Some q ->
  t ∈ data q ->
  0 < remaining t.
Proof.
  intros Hr. destruct (reachable_sound s Hr) as [Hp _]. apply Hp.
Qed.

Lemma reachable_tasks_positive_witness :
  0 < remaining (mkTask "c1-001" 3).
Proof.
  apply (reachable_tasks_positive demo_full "c1"
           (mkQueueRR "c1" 1 [mkTask "c1-001" 3]) (mkTask "c1-001" 3)
           demo_full_reachable).
  - vm_compute. reflexivity.
  - simpl. by left.
Defined.

(** X11: on every reachable scheduler every subscript [display] takes finds
    its key, and the result has [n + 2] lines: the time line, the menu
    line, which is always the same seven entries in ascending order of
    name, and one line per queue; [menu()] is still the built-in table.
    (Only failed subscripts are modelled as exceptions; the interpreter's
    limit on printing very large integers is not.) *)
Theorem display_snapshot (s : Scheduler) :
  reachable s ->
  menu s = REQUIRED_MENU /\
  exists qlines,
    display s
    = Some (("display time=" +:+ str_int (time s) +:+ " next=" +:+ next_or_none s)
            :: "display menu=[americano:2,cappuccino:3,hot_chocolate:4,latte:3,macchiato:2,mocha:4,tea:1]"
            :: qlines) /\
    mapM (display_queue s) (queue_order s) = Some qlines /\
    length qlines = length (queue_order s).
Proof.
  intros Hr. destruct (reachable_sound s Hr) as [_ Hm]. split; [exact Hm|].
  destruct (display_total s (reachable_wf s Hr)) as [lines Hd].
  unfold display in *. rewrite Hm in *.
  destruct (mapM (display_queue s) (queue_order s)) as [ql|] eqn:E;
    simpl in *; [|done].
  exists ql. split; [|split; [done|by rewrite (length_mapM _ _ _ E)]].
  reflexivity.
Qed.

Lemma display_snapshot_witness :
  display demo_full
  = Some [ "display time=0 next=c1";
           "display menu=[americano:2,cappuccino:3,hot_chocolate:4,latte:3,macchiato:2,mocha:4,tea:1]";
           "display c1 [1/1] -> [c1-001:3]" ].
Proof.
  destruct (display_snapshot demo_full demo_full_reachable)
    as (_ & qlines & Hd & Hq & _).
  vm_compute in Hq. injection Hq as <-. rewrite Hd. vm_compute. reflexivity.
Defined.

(** ** The clock *)

Lemma run_turn_time quantum n s s' l :
  tasks_positive s -> 0 <= quantum ->
  run_turn quantum n s = Some (s', l) -> time s <= time s'.
Proof.
  intros Hp Hquantum Ht.
  destruct (run_turn_cases _ _ _ _ _ Ht) as (qid & q & s1 & l1 & _ & Hq & Hs & ->).
  simpl.
  destruct (serve_cases _ _ _ _ _ _ Hs)
    as [[_ ->]|[(_ & _ & ->)|(t & rest & q' & _ & Hd & _ & ->)]];
    simpl; try lia.
  assert (0 < remaining t) by (apply (Hp qid q t Hq); rewrite Hd; by left).
  lia.
Qed.

(** X12: while every queued task has time left (as in every reachable
    scheduler) and the quantum is not negative, [run] never moves the clock
    backwards. *)
Theorem run_time_monotone (s s' : Scheduler) (quantum : Z) (steps : option Z)
    (l : list string) :
  tasks_positive s ->
  0 <= quantum ->
  run quantum steps s = Some (s', l) ->
  time s <= time s'.
Proof.
  intros Hp Hquantum Hrun.
  apply (run_invariant (fun s1 => tasks_positive s1 /\ time s <= time s1)
           quantum steps s s' l); [|split; [done|lia]|done].
  intros s1 s2 l1 [Hp1 Hle] Ht. split.
  - by eapply run_turn_positive.
  - pose proof (run_turn_time _ _ _ _ _ Hp1 Hquantum Ht). lia.
Qed.

Lemma run_time_monotone_witness :
  exists s' l, run 2 None demo_full = Some (s', l) /\ time demo_full <= time s'.
Proof.
  destruct (run 2 None demo_full) as [[s' l]|] eqn:E.
  - exists s', l. split; [reflexivity|].
    apply (run_time_monotone demo_full s' 2 None l); [|lia|exact E].
    apply reachable_sound, demo_full_reachable.
  - vm_compute in E. discriminate.
Defined.

(** ** The registry only grows *)

Lemma exec_op_order o s s' :
  exec_op o s = Some s' -> queue_order s `prefix_of` queue_order s'.
Proof.
  destruct o as [qid cap|qid item|qid|quantum steps]; simpl.
  - intros [= <-]. unfold create_queue.
    destruct (queues s !! qid); simpl; [done|]. by apply prefix_app_r.
  - destruct (enqueue qid item s) as [o|] eqn:E; simpl; [|done].
    intros [= <-]. destruct (enqueue_menu _ _ _ _ E) as (_ & -> & _). done.
  - intros [= <-]. unfold mark_skip. by destruct (skip_flags s !! qid).
  - unfold run. destruct (run_counting quantum steps s) as [r|] eqn:E; simpl; [|done].
    intros [= <-]. destruct (run_counting_frame _ _ _ _ E) as (_ & -> & _). done.
Qed.

Lemma exec_op_nodup o s s' :
  wf s /\ NoDup (queue_order s) -> exec_op o s = Some s' ->
  wf s' /\ NoDup (queue_order s').
Proof.
  intros [Hwf Hnd] Hop. split; [by eapply exec_op_wf|].
  destruct o as [qid cap|qid item|qid|quantum steps]; simpl in Hop.
  - injection Hop as <-. unfold create_queue.
    destruct (queues s !! qid) as [q|] eqn:Hq; simpl; [done|].
    apply NoDup_app. split; [done|]. split; [|apply NoDup_singleton].
    intros x Hx Hx'. apply list_elem_of_singleton in Hx' as ->.
    apply (wf_order s Hwf) in Hx as [? ?]. congruence.
  - destruct (enqueue qid item s) as [o|] eqn:E; simpl in Hop; [|done].
    injection Hop as <-. destruct (enqueue_menu _ _ _ _ E) as (_ & -> & _). done.
  - injection Hop as <-. unfold mark_skip. by destruct (skip_flags s !! qid).
  - unfold run in Hop.
    destruct (run_counting quantum steps s) as [r|] eqn:E; simpl in Hop; [|done].
    injection Hop as <-. destruct (run_counting_frame _ _ _ _ E) as (_ & -> & _). done.
Qed.

Lemma reachable_nodup s : reachable s -> NoDup (queue_order s).
Proof.
  intros [os H].
  apply (exec_ops_invariant (fun s => wf s /\ NoDup (queue_order s))
           exec_op_nodup os init s); [|done].
  split; [apply wf_init|apply NoDup_nil_2].
Qed.

(** X13: the creation order lists each registered id once, and no session
    removes or reorders it: the order before is a prefix of the order
    after. *)
Theorem order_append_only (s : Scheduler) :
  reachable s ->
  NoDup (queue_order s) /\
  (forall qid, qid ∈ queue_order s <-> is_Some (queues s !! qid)) /\
  forall os s', exec_ops os s = Some s' ->
                queue_order s `prefix_of` queue_order s'.
Proof.
  intros Hr. split; [by apply reachable_nodup|].
  split; [apply (wf_order s (reachable_wf s Hr))|].
  intros os s'.
  apply (exec_ops_invariant (fun s1 => queue_order s `prefix_of` queue_order s1));
    [|done].
  intros o s1 s2 Hpre Hop. etrans; [exact Hpre|]. by eapply exec_op_order.
Qed.

Lemma order_append_only_witness :
  NoDup (queue_order demo_full) /\
  queue_order demo_full `prefix_of`
    queue_order (fst (create_queue "c2" 3 demo_full)).
Proof.
  destruct (order_append_only demo_full demo_full_reachable) as (H1 & _ & H2).
  split; [exact H1|]. apply (H2 [OCreate "c2" 3]). reflexivity.
Defined.

(** ** Counters count admission attempts *)

Lemma exec_op_counter o s s' qid c :
  wf s -> id_counter s !! qid = Some c -> exec_op o s = Some s' ->
  id_counter s' !! qid = Some (c + enqueue_calls qid [o]).
Proof.
  intros Hwf Hc.
  assert (Hq : is_Some (queues s !! qid)) by (apply (wf_counter s Hwf); eauto).
  destruct o as [q0 cap|q0 item|q0|quantum steps]; simpl.
  - intros [= <-]. rewrite Z.add_0_r. unfold create_queue.
    destruct (queues s !! q0) as [q|] eqn:Hq0; simpl; [done|].
    rewrite lookup_insert_ne; [done|]. intros ->. destruct Hq. congruence.
  - destruct (enqueue q0 item s) as [o|] eqn:E; simpl; [|done].
    intros [= <-]. rewrite Z.add_0_r. unfold enqueue in E.
    destruct (String.eqb_spec q0 qid) as [->|Hne].
    + destruct Hq as [q Hq]. rewrite Hq, Hc in E. simpl in E.
      destruct (menu_get _ _) as [burst|].
      * destruct (QueueRR_.enqueue _ _) as [q' []]; injection E as <-; simpl;
          by rewrite lookup_insert_eq.
      * injection E as <-. simpl. by rewrite lookup_insert_eq.
    + rewrite Z.add_0_r.
      destruct (queues s !! q0) as [q|]; [|by injection E as <-].
      destruct (id_counter s !! q0) as [c0|]; simpl in E; [|done].
      destruct (menu_get _ _) as [burst|].
      * destruct (QueueRR_.enqueue _ _) as [q' []]; injection E as <-; simpl;
          by rewrite lookup_insert_ne.
      * injection E as <-. simpl. by rewrite lookup_insert_ne.
  - intros [= <-]. rewrite Z.add_0_r. unfold mark_skip.
    by destruct (skip_flags s !! q0).
  - unfold run. destruct (run_counting quantum steps s) as [r|] eqn:E; simpl; [|done].
    intros [= <-]. rewrite Z.add_0_r.
    destruct (run_counting_frame _ _ _ _ E) as (-> & _). done.
Qed.

(** X14: from the moment a queue is registered, its counter equals its
    value then plus the number of [enqueue] calls made on that queue since,
    accepted or not; no other operation touches it.  In particular it never
    goes down. *)
Theorem counter_counts_enqueues (os : list Op) (s s' : Scheduler)
    (qid : string) (c : Z) :
  wf s ->
  id_counter s !! qid = Some c ->
  exec_ops os s = Some s' ->
  id_counter s' !! qid = Some (c + enqueue_calls qid os) /\
  0 <= enqueue_calls qid os.
Proof.
  revert s c. induction os as [|o os IH]; intros s c Hwf Hc; simpl.
  - intros [= <-]. rewrite Z.add_0_r. split; [done|lia].
  - destruct (exec_op o s) as [s1|] eqn:E; simpl; [|done]. intros Hos.
    pose proof (exec_op_counter o s s1 qid c Hwf Hc E) as Hc1.
    destruct (IH s1 _ (exec_op_wf _ _ _ Hwf E) Hc1 Hos) as [Hc' Hnn].
    simpl in Hc1, Hc'.
    destruct o as [q0 cap|q0 item|q0|quantum steps];
      rewrite ?Z.add_0_r in *; try (split; [done|lia]).
    rewrite Hc'. split; [f_equal; lia|].
    destruct (String.eqb q0 qid); lia.
Qed.

Lemma counter_counts_enqueues_witness :
  id_counter
    (default init
       (exec_ops [OEnqueue "c1" "tea"; ORun 1 (Some 1); OEnqueue "c1" "pizza";
                  OEnqueue "c7" "tea"; OMarkSkip "c1"] demo_full)) !! "c1"
  = Some 3.
Proof.
  destruct (exec_ops [OEnqueue "c1" "tea"; ORun 1 (Some 1); OEnqueue "c1" "pizza";
                      OEnqueue "c7" "tea"; OMarkSkip "c1"] demo_full)
    as [s'|] eqn:E.
  - destruct (counter_counts_enqueues _ demo_full s' "c1" 1
                (reachable_wf _ demo_full_reachable)
                ltac:(vm_compute; reflexivity) E) as [H _].
    exact H.
  - vm_compute in E. discriminate.
Defined.

(** ** Service time is conserved *)

Lemma py_index_elem {A} (l : list A) (i : Z) (x : A) :
  py_index l i = Some x -> x ∈ l.
Proof.
  unfold py_index. intros H.
  destruct (_ && _); [apply list_elem_of_lookup; eauto|].
  destruct (_ && _); [apply list_elem_of_lookup; eauto|done].
Qed.

Lemma load_of_insert_eq (m : gmap string QueueRR) qid q' :
  load_of (<[qid := q']> m) qid = queue_load q'.
Proof. unfold load_of. by rewrite lookup_insert_eq. Qed.

Lemma load_of_insert_ne (m : gmap string QueueRR) qid q' x :
  qid <> x -> load_of (<[qid := q']> m) x = load_of m x.
Proof. intros Hne. unfold load_of. by rewrite lookup_insert_ne. Qed.

Lemma load_sum_insert_fresh (m : gmap string QueueRR) qid q' (l : list string) :
  qid ∉ l ->
  fold_right Z.add 0 (map (load_of (<[qid := q']> m)) l)
  = fold_right Z.add 0 (map (load_of m) l).
Proof.
  induction l as [|x l IH]; intros Hnin; simpl; [done|].
  apply not_elem_of_cons in Hnin as [Hne Hnin].
  by rewrite load_of_insert_ne, IH.
Qed.

Lemma load_sum_insert (m : gmap string QueueRR) qid q' (l : list string) :
  NoDup l -> qid ∈ l ->
  fold_right Z.add 0 (map (load_of (<[qid := q']> m)) l)
  = fold_right Z.add 0 (map (load_of m) l) - load_of m qid + queue_load q'.
Proof.
  induction l as [|x l IH]; intros Hnd Hin; [inversion Hin|].
  apply NoDup_cons in Hnd as [Hx Hnd]. simpl.
  destruct (decide (qid = x)) as [->|Hne].
  - rewrite load_of_insert_eq, load_sum_insert_fresh by done. lia.
  - apply elem_of_cons in Hin as [Hin|Hin]; [done|].
    rewrite load_of_insert_ne, IH by done. lia.
Qed.

Lemma load_app_one (rest : list Task) (t : Task) :
  fold_right Z.add 0 (map remaining (rest ++ [t]))
  = fold_right Z.add 0 (map remaining rest) + remaining t.
Proof. induction rest as [|x rest IH]; simpl; lia. Qed.

Lemma serve_conserve quantum qid q s s1 l :
  wf s -> NoDup (queue_order s) -> qid ∈ queue_order s ->
  queues s !! qid = Some q ->
  serve quantum qid q s = Some (s1, l) ->
  time s1 + total_load s1 = time s + total_load s.
Proof.
  intros Hwf Hnd Hin Hq Hs.
  destruct (serve_cases _ _ _ _ _ _ Hs)
    as [[_ ->]|[(_ & _ & ->)|(t & rest & q' & _ & Hd & Hq' & ->)]];
    [done|done|].
  unfold total_load. simpl.
  rewrite (load_sum_insert _ _ _ _ Hnd Hin).
  assert (Hold : load_of (queues s) qid
                 = remaining t + fold_right Z.add 0 (map remaining rest)).
  { unfold load_of, queue_load. rewrite Hq. simpl. by rewrite Hd. }
  rewrite Hold.
  destruct Hq' as [[Hpos ->]|[Hle ->]].
  - destruct (reinsert_ok q t
                (mkTask (task_id t)
                        (remaining t - Z.min (remaining t) quantum))
                rest (wf_bound s Hwf qid q Hq) Hd) as (_ & _ & ->).
    unfold queue_load. simpl. rewrite load_app_one. simpl. lia.
  - unfold queue_load. simpl. lia.
Qed.

Lemma run_turn_conserve quantum s s' l :
  wf s -> NoDup (queue_order s) ->
  run_turn quantum (Z.of_nat (length (queue_order s))) s = Some (s', l) ->
  wf s' /\ queue_order s' = queue_order s /\
  time s' + total_load s' = time s + total_load s.
Proof.
  intros Hwf Hnd Ht.
  destruct (run_turn_wf _ _ _ _ Hwf Ht) as [Hwf' Ho].
  split; [done|]. split; [done|].
  destruct (run_turn_cases _ _ _ _ _ Ht) as (qid & q & s1 & l1 & Hi & Hq & Hs & ->).
  apply py_index_elem in Hi.
  exact (serve_conserve _ _ _ _ _ _ Hwf Hnd Hi Hq Hs).
Qed.

Lemma run_counting_conserve quantum steps s r :
  wf s -> NoDup (queue_order s) ->
  run_counting quantum steps s = Some r ->
  time (fst (fst r)) + total_load (fst (fst r)) = time s + total_load s.
Proof.
  intros Hwf Hnd Hrun.
  apply (run_counting_invariant
           (fun s1 => wf s1 /\ queue_order s1 = queue_order s /\
                      time s1 + total_load s1 = time s + total_load s)
           quantum steps s r); [|done|done].
  intros s1 s2 l1 (Hwf1 & Ho1 & Hc1) Ht. rewrite <- Ho1 in Ht.
  destruct (run_turn_conserve _ _ _ _ Hwf1 ltac:(by rewrite Ho1) Ht)
    as (Hwf2 & Ho2 & Hc2).
  split; [done|]. split; [congruence|lia].
Qed.

Lemma idle_load s : idle s -> total_load s = 0.
Proof.
  intros [Hempty _]. unfold total_load.
  induction (queue_order s) as [|x l IH]; simpl; [done|].
  rewrite IH. unfold load_of.
  destruct (queues s !! x) as [q|] eqn:Hq; simpl; [|done].
  unfold queue_load. by rewrite (Hempty x q Hq).
Qed.

(** X15: whatever the quantum and the step bound, [run] conserves the sum
    of the clock and the service time still owed to the queued tasks: every
    unit the clock advances is a unit taken off some task. *)
Theorem run_conserves_service (s s' : Scheduler) (quantum : Z)
    (steps : option Z) (l : list string) :
  wf s ->
  NoDup (queue_order s) ->
  run quantum steps s = Some (s', l) ->
  time s' + total_load s' = time s + total_load s.
Proof.
  intros Hwf Hnd. unfold run.
  destruct (run_counting quantum steps s) as [[[s1 l1] k]|] eqn:E; simpl; [|done].
  intros [= <- <-]. by apply (run_counting_conserve quantum steps s _ Hwf Hnd E).
Qed.

Lemma run_conserves_service_witness :
  exists s' l,
    run 2 (Some 1) demo_full = Some (s', l) /\
    time s' + total_load s' = 3.
Proof.
  destruct (run 2 (Some 1) demo_full) as [[s' l]|] eqn:E.
  - exists s', l. split; [reflexivity|].
    rewrite (run_conserves_service demo_full s' 2 (Some 1) l
               (reachable_wf _ demo_full_reachable)
               (reachable_nodup _ demo_full_reachable) E).
    vm_compute. reflexivity.
  - vm_compute in E. discriminate.
Defined.

(** X16: when the unbounded [run] stops before its ceiling of [100 n]
    turns, every queue is empty, no flag is set, and the clock has advanced
    by exactly the service time that was owed when the run began. *)
Theorem run_drains_in_total_time (s s' : Scheduler) (quantum k : Z)
    (l : list string) :
  wf s ->
  NoDup (queue_order s) ->
  queue_order s <> [] ->
  run_counting quantum None s = Some (s', l, k) ->
  k < Z.of_nat (length (queue_order s)) * 100 ->
  idle s' /\ total_load s' = 0 /\ time s' = time s + total_load s.
Proof.
  intros Hwf Hnd Hne Hrun Hk.
  pose proof (run_counting_conserve quantum None s _ Hwf Hnd Hrun) as Hc.
  simpl in Hc.
  destruct (run_loop_spec quantum None _
              (Z.to_nat (Z.of_nat (length (queue_order s)) * 100)) s 0 []
              Hwf Hne eq_refl)
    as (s2 & l2 & k2 & Hloop & _ & _ & _ & _ & _ & _ & Hnone).
  unfold run_counting in Hrun.
  replace (Z.of_nat (length (queue_order s)) =? 0) with false in Hrun.
  2:{ symmetry. apply Z.eqb_neq. destruct (queue_order s); [done|simpl; lia]. }
  rewrite Hloop in Hrun. injection Hrun as <- <- <-.
  destruct (Hnone eq_refl) as [_ Hend].
  assert (Hidle : idle s2) by (apply drained_spec, Hend; lia).
  pose proof (idle_load s2 Hidle). split; [done|]. split; [done|]. lia.
Qed.

Lemma run_drains_in_total_time_witness :
  exists s' l k,
    run_counting 2 None demo_full = Some (s', l, k) /\
    idle s' /\ time s' = 3.
Proof.
  destruct (run_counting 2 None demo_full) as [[[s' l] k]|] eqn:E.
  - exists s', l, k. split; [reflexivity|].
    assert (Hk : k = 2) by (vm_compute in E; congruence).
    destruct (run_drains_in_total_time demo_full s' 2 k l
                (reachable_wf _ demo_full_reachable)
                (reachable_nodup _ demo_full_reachable)
                ltac:(discriminate) E
                ltac:(rewrite Hk; vm_compute; reflexivity))
      as (H1 & _ & H2).
    split; [exact H1|]. rewrite H2. vm_compute. reflexivity.
  - vm_compute in E. discriminate.
Defined.

(** ** A quantum that is not positive *)

Lemma run_turn_stalled quantum s s' l :
  quantum <= 0 ->
  wf s /\ tasks_positive s /\ busy s ->
  run_turn quantum (Z.of_nat (length (queue_order s))) s = Some (s', l) ->
  (wf s' /\ tasks_positive s' /\ busy s') /\
  queue_order s' = queue_order s /\ time s' <= time s.
Proof.
  intros Hquantum (Hwf & Hp & Hbusy) Ht.
  destruct (run_turn_wf _ _ _ _ Hwf Ht) as [Hwf' Ho].
  pose proof (run_turn_positive _ _ _ _ _ Hp Ht) as Hp'.
  destruct (run_turn_cases _ _ _ _ _ Ht) as (qid & q & s1 & l1 & _ & Hq & Hs & ->).
  destruct (serve_cases _ _ _ _ _ _ Hs)
    as [[_ ->]|[(_ & _ & ->)|(t & rest & q' & _ & Hd & Hq' & ->)]].
  - split_and!; try done; simpl; lia.
  - split_and!; try done; simpl; lia.
  - assert (Ht0 : 0 < remaining t)
      by (apply (Hp qid q t Hq); rewrite Hd; by left).
    simpl in Hq'. destruct Hq' as [[Hpos ->]|[Hle _]]; [|lia].
    destruct (reinsert_ok q t
                (mkTask (task_id t)
                        (remaining t - Z.min (remaining t) quantum))
                rest (wf_bound s Hwf qid q Hq) Hd) as (_ & _ & Hre).
    split_and!; try done; [|simpl; lia].
    eexists qid, _. simpl. rewrite lookup_insert_eq. split; [done|].
    rewrite Hre. simpl. by destruct rest.
Qed.

(** X17: [run] does not check the quantum.  With a quantum of zero or less
    no task ever finishes, so on a scheduler holding at least one task the
    unbounded [run] never meets its stop test: it executes all [100 n]
    turns, still holds a task at the end, and the clock has not advanced. *)
Theorem run_nonpositive_quantum_hits_ceiling (s : Scheduler) (quantum : Z) :
  wf s ->
  tasks_positive s ->
  busy s ->
  quantum <= 0 ->
  let n := Z.of_nat (length (queue_order s)) in
  exists s' logs,
    run_counting quantum None s = Some (s', logs, n * 100) /\
    busy s' /\ time s' <= time s.
Proof.
  intros Hwf Hp Hbusy Hquantum n.
  assert (Hne : queue_order s <> []).
  { destruct Hbusy as (qid & q & Hq & _). intros E.
    assert (Hin : qid ∈ queue_order s) by (apply (wf_order s Hwf); eauto).
    rewrite E in Hin. inversion Hin. }
  assert (Hn : 1 <= n) by (subst n; destruct (queue_order s); [done|simpl; lia]).
  destruct (run_loop_spec quantum None n (Z.to_nat (n * 100)) s 0 [] Hwf Hne eq_refl)
    as (s' & l' & k & Hloop & _ & _ & Hk & _ & Hafter & _ & Hnone).
  destruct (Hnone eq_refl) as [_ Hend].
  assert (HI : (wf s' /\ tasks_positive s' /\ busy s') /\
               queue_order s' = queue_order s /\ time s' <= time s).
  { apply (after_turns_invariant
             (fun s1 => (wf s1 /\ tasks_positive s1 /\ busy s1) /\
                        queue_order s1 = queue_order s /\ time s1 <= time s)
             quantum n) with (k := k) (s := s); [|split_and!; (done || lia)|done].
    intros s1 s2 l1 (H1 & Ho1 & Ht1) Ht. subst n. rewrite <- Ho1 in Ht.
    destruct (run_turn_stalled _ _ _ _ Hquantum H1 Ht) as (H2 & Ho2 & Ht2).
    split; [done|]. split; [congruence|lia]. }
  destruct HI as ((_ & _ & Hbusy') & _ & Htime).
  assert (k = Z.to_nat (n * 100)) as ->.
  { destruct (decide (k < Z.to_nat (n * 100))%nat) as [Hlt|]; [|lia].
    exfalso. apply (idle_not_busy s'); [|done]. by apply drained_spec, Hend. }
  exists s', l'. unfold run_counting. fold n.
  replace (n =? 0) with false by (symmetry; apply Z.eqb_neq; lia).
  rewrite Hloop. simpl. rewrite Z2Nat.id by lia. done.
Qed.

Lemma run_nonpositive_quantum_hits_ceiling_witness :
  exists s' logs,
    run_counting 0 None demo_full = Some (s', logs, 100) /\ busy s'.
Proof.
  destruct (run_nonpositive_quantum_hits_ceiling demo_full 0
              (reachable_wf _ demo_full_reachable)
              (proj1 (reachable_sound _ demo_full_reachable))
              ltac:(exists "c1", (mkQueueRR "c1" 1 [mkTask "c1-001" 3]);
                    split; [vm_compute; reflexivity|discriminate])
              ltac:(lia))
    as (s' & logs & H1 & H2 & _).
  exists s', logs. split; [exact H1 | exact H2].
Defined.

(** ** Sessions *)

(** X18: once registered, a queue stays registered with the capacity it
    was created with through any session, also when [create_queue] is
    called again on its id with another capacity. *)
Theorem capacity_is_permanent (os : list Op) (s s' : Scheduler) (qid : string)
    (c : Z) :
  cap_of s qid = Some c ->
  exec_ops os s = Some s' ->
  cap_of s' qid = Some c /\ is_Some (queues s' !! qid).
Proof.
  intros Hc Hos. pose proof (exec_ops_cap os qid c s s' Hos Hc) as Hc'.
  split; [done|]. unfold cap_of in Hc'.
  destruct (queues s' !! qid); [eauto|done].
Qed.

Lemma capacity_is_permanent_witness :
  cap_of (fst (create_queue "c1" 9 demo_full)) "c1" = Some 1.
Proof.
  apply (capacity_is_permanent [OCreate "c1" 9] demo_full _ "c1" 1).
  - vm_compute. reflexivity.
  - reflexivity.
Defined.

(** X19: in no session started on a fresh scheduler does a subscript fail:
    every key or index the operations look up in [queues], [id_counter],
    [skip_flags] and [queue_order] is there, so no [KeyError] or
    [IndexError] is raised.  (Other exceptions, such as the interpreter's
    limit on printing very large integers, are not modelled.) *)
Theorem session_never_raises (os : list Op) :
  exists s, exec_ops os init = Some s /\ wf s.
Proof.
  assert (H : forall os s0, wf s0 -> exists s, exec_ops os s0 = Some s /\ wf s).
  { clear os. induction os as [|o os IH]; intros s0 Hwf; simpl; [eauto|].
    destruct (exec_op_total o s0 Hwf) as [s1 H1]. rewrite H1. simpl.
    apply IH. by eapply exec_op_wf. }
  apply H, wf_init.
Qed.

(** X20: in every reachable scheduler the queue table, the counters and
    the skip flags have the same keys, namely the ids in the creation
    order, and the cursor is a valid index into that order (zero when it is
    empty). *)
Theorem reachable_consistent (s : Scheduler) (qid : string) :
  reachable s ->
  (qid ∈ queue_order s <-> is_Some (queues s !! qid)) /\
  (is_Some (queues s !! qid) <-> is_Some (id_counter s !! qid)) /\
  (is_Some (queues s !! qid) <-> is_Some (skip_flags s !! qid)) /\
  0 <= rr_index s /\
  (queue_order s = [] -> rr_index s = 0) /\
  (queue_order s <> [] -> rr_index s < Z.of_nat (length (queue_order s))).
Proof.
  intros Hr. destruct (reachable_wf s Hr) as [H1 H2 H3 H4 H5].
  split_and!; try done; try lia.
  - intros E. rewrite E in H4. simpl in H4. lia.
  - intros Hne. destruct (queue_order s); [done|]. simpl length in *. lia.
Qed.

Lemma reachable_consistent_witness :
  ("c1" ∈ queue_order demo_full <-> is_Some (queues demo_full !! "c1")) /\
  0 <= rr_index demo_full.
Proof.
  destruct (reachable_consistent demo_full "c1" demo_full_reachable)
    as (H1 & _ & _ & H2 & _).
  split; [exact H1 | exact H2].
Defined.

(** ** The menu line *)

Lemma item_leb_total a b : item_leb a b = false -> item_leb b a = true.
Proof.
  unfold item_leb. rewrite (String.compare_antisym (fst a) (fst b)).
  destruct (String.compare (fst b) (fst a)); simpl; try done.
  intros H. apply Z.leb_gt in H. apply Z.leb_le. lia.
Qed.

Lemma insert_sorted_perm x l : insert_sorted x l ≡ₚ x :: l.
Proof.
  induction l as [|y l IH]; simpl; [done|].
  destruct (item_leb x y); [done|]. rewrite IH. apply Permutation_swap.
Qed.

Lemma insert_sorted_is_sorted x l :
  is_sorted l = true -> is_sorted (insert_sorted x l) = true.
Proof.
  induction l as [|y l IH]; intros Hs; [done|].
  cbn [insert_sorted]. destruct (item_leb x y) eqn:Hxy.
  - cbn [is_sorted]. rewrite Hxy. exact Hs.
  - cbn [is_sorted] in Hs. apply andb_true_iff in Hs as [Hhd Htl].
    specialize (IH Htl). apply item_leb_total in Hxy.
    cbn [is_sorted]. fold is_sorted. rewrite IH, andb_true_r.
    destruct l as [|z l]; cbn [insert_sorted]; [done|].
    destruct (item_leb x z); done.
Qed.

(** X21: the entries [display] puts on the menu line are the entries of
    the menu, each once, arranged in ascending order of name (ties by
    cost). *)
Theorem sorted_items_sorted (l : list (string * Z)) :
  is_sorted (sorted_items l) = true /\ sorted_items l ≡ₚ l.
Proof.
  unfold sorted_items. induction l as [|x l [IH1 IH2]]; simpl; [done|].
  split; [by apply insert_sorted_is_sorted|].
  rewrite insert_sorted_perm. by constructor.
Qed.

(** ** One service step *)

(** X22: with a positive quantum, serving a head task that has time left
    either finishes it, exactly when its remaining time is at most the
    quantum (the clock advances by that remaining time and the task leaves
    the queue), or preempts it (the clock advances by the quantum and the
    task goes to the tail with a remaining time that is lower than before
    and still positive). *)
Theorem serve_finishes_or_preempts (s : Scheduler) (quantum : Z) (qid : string)
    (q : QueueRR) (t : Task) (rest : list Task) :
  wf s ->
  0 < quantum ->
  0 < remaining t ->
  queues s !! qid = Some q ->
  skip_flags s !! qid = Some false ->
  data q = t :: rest ->
  exists s1 l,
    serve quantum qid q s = Some (s1, l) /\
    (remaining t <= quantum ->
       time s1 = time s + remaining t /\
       (data <$> queues s1 !! qid) = Some rest /\
       l = [log_finish (time s + remaining t) qid (task_id t)]) /\
    (quantum < remaining t ->
       time s1 = time s + quantum /\
       (data <$> queues s1 !! qid)
         = Some (rest ++ [mkTask (task_id t) (remaining t - quantum)]) /\
       0 < remaining t - quantum < remaining t /\
       l = [log_work (time s + quantum) qid (task_id t) (remaining t - quantum)]).
Proof.
  intros Hwf Hquantum Hpos Hq Hflag Hd.
  pose proof (serve_work quantum qid q s t rest Hflag Hd) as Hs. simpl in Hs.
  destruct (Z_le_gt_dec (remaining t) quantum) as [Hle|Hgt].
  - rewrite Z.min_l in Hs by lia. rewrite Z.sub_diag in Hs. simpl in Hs.
    eexists _, _. split; [exact Hs|]. split; [|lia].
    intros _. simpl. rewrite lookup_insert_eq. done.
  - rewrite Z.min_r in Hs by lia.
    replace (remaining t - quantum >? 0) with true in Hs
      by (symmetry; rewrite Z.gtb_ltb; apply Z.ltb_lt; lia).
    destruct (reinsert_ok q t (mkTask (task_id t) (remaining t - quantum))
                rest (wf_bound s Hwf qid q Hq) Hd) as (_ & _ & Hre).
    rewrite Hre in Hs. simpl in Hs.
    eexists _, _. split; [exact Hs|]. split; [lia|].
    intros _. simpl. rewrite lookup_insert_eq. split_and!; try done; lia.
Qed.

Lemma serve_finishes_or_preempts_witness :
  ((fun r => (time (fst r), data <$> queues (fst r) !! "c1", snd r))
     <$> serve 3 "c1" (mkQueueRR "c1" 1 [mkTask "c1-001" 3]) demo_full)
  = Some (3, Some [], ["time=3 event=finish queue=c1 task=c1-001"])
  /\
  ((fun r => (time (fst r), data <$> queues (fst r) !! "c1", snd r))
     <$> serve 2 "c1" (mkQueueRR "c1" 1 [mkTask "c1-001" 3]) demo_full)
  = Some (2, Some [mkTask "c1-001" 1],
          ["time=2 event=work queue=c1 task=c1-001 remaining=1"]).
Proof.
  split.
  - destruct (serve_finishes_or_preempts demo_full 3 "c1"
                (mkQueueRR "c1" 1 [mkTask "c1-001" 3]) (mkTask "c1-001" 3) []
                (reachable_wf _ demo_full_reachable)
                ltac:(lia) ltac:(simpl; lia)
                ltac:(vm_compute; reflexivity) ltac:(vm_compute; reflexivity)
                ltac:(reflexivity))
      as (s1 & l & Hs & Hfin & _).
    destruct (Hfin ltac:(simpl; lia)) as (H1 & H2 & H3).
    rewrite Hs. simpl. rewrite H1, H2, H3. vm_compute. reflexivity.
  - destruct (serve_finishes_or_preempts demo_full 2 "c1"
                (mkQueueRR "c1" 1 [mkTask "c1-001" 3]) (mkTask "c1-001" 3) []
                (reachable_wf _ demo_full_reachable)
                ltac:(lia) ltac:(simpl; lia)
                ltac:(vm_compute; reflexivity) ltac:(vm_compute; reflexivity)
                ltac:(reflexivity))
      as (s1 & l & Hs & _ & Hpre).
    destruct (Hpre ltac:(simpl; lia)) as (H1 & H2 & _ & H3).
    rewrite Hs. simpl. rewrite H1, H2, H3. vm_compute. reflexivity.
Defined.
